(** * SEO redundant-link cleaner: the core of [app.js], embedded and verified

    The development follows the layout of [app.js]: the template guard,
    the URL normaliser, the link classifiers, the analysis pass, the
    auto-strip decision engine, the HTML regenerator and the toggle
    handler.  Each JavaScript function is translated into a Rocq function
    of the same name.

    Modelling conventions.
    - A JavaScript string is a list of code units.  The model keeps the
      code units U+0000..U+00FF, one [ascii] each; [toLowerCase] and [trim]
      are the restrictions of the ECMAScript functions to that range.
    - A JavaScript exception is a [Throw] completion; [try]/[catch] is
      [try_catch].
    - The DOM is an element tree ([node]), with the namespace of each
      element.  The HTML parser ([innerHTML = ...]) and the serialiser are
      the platform's: the analysis takes the parsed container, and the
      regenerator takes the parser and the serialiser as parameters.
    - The platform's [URL] constructor is a parameter of the functions that
      call it. *)

From Stdlib Require Import Ascii String Decimal DecimalNat.
From stdpp Require Import base option list sorting gmap.

Set Default Proof Using "Type".

(** ** JavaScript strings *)

Abbreviation str := (list ascii).

Definition lit (s : string) : str := list_ascii_of_string s.
Coercion lit : string >-> list.

Module JsString.

Definition code (c : ascii) : nat := nat_of_ascii c.

Definition is_digit (c : ascii) : bool :=
  (48 <=? code c) && (code c <=? 57).

(** [WhiteSpace] and [LineTerminator] code units below U+0100:
    TAB, LF, VT, FF, CR, SP and NBSP. *)
Definition is_space (c : ascii) : bool :=
  ((9 <=? code c) && (code c <=? 13)) || (code c =? 32) || (code c =? 160).

(** [\w] of a regular expression without the [u] and [i] flags. *)
Definition is_word (c : ascii) : bool :=
  is_digit c
  || ((65 <=? code c) && (code c <=? 90))
  || ((97 <=? code c) && (code c <=? 122))
  || (code c =? 95).

(** Lower-casing of one code unit: A-Z, and the Latin-1 capitals
    U+00C0..U+00DE except the multiplication sign U+00D7. *)
Definition lower_char (c : ascii) : ascii :=
  if ((65 <=? code c) && (code c <=? 90))
     || ((192 <=? code c) && (code c <=? 222) && negb (code c =? 215))
  then ascii_of_nat (code c + 32)
  else c.

Definition toLowerCase (s : str) : str := map lower_char s.

Fixpoint trimStart (s : str) : str :=
  match s with
  | c :: s' => if is_space c then trimStart s' else s
  | [] => []
  end.

Definition trimEnd (s : str) : str := reverse (trimStart (reverse s)).

Definition trim (s : str) : str := trimEnd (trimStart s).

Fixpoint startsWith (s p : str) {struct p} : bool :=
  match p, s with
  | [], _ => true
  | a :: p', b :: s' => bool_decide (a = b) && startsWith s' p'
  | _ :: _, [] => false
  end.

Definition endsWith (s p : str) : bool := startsWith (reverse s) (reverse p).

(** [s.split(sep)[0]] for a one-character separator: the text before the
    first occurrence of [sep], or all of [s]. *)
Fixpoint split_first (sep : ascii) (s : str) : str :=
  match s with
  | c :: s' => if bool_decide (c = sep) then [] else c :: split_first sep s'
  | [] => []
  end.

(** [s.slice(0, -1)]. *)
Definition drop_last (s : str) : str := take (length s - 1) s.

(** [s.indexOf(p)], [None] standing for -1. *)
Fixpoint indexOf (s p : str) : option nat :=
  if startsWith s p then Some 0
  else match s with
       | _ :: s' => S <$> indexOf s' p
       | [] => None
       end.

Definition includes (s p : str) : bool := bool_decide (is_Some (indexOf s p)).

(** [s.slice(i, j)] for non-negative [i <= j]. *)
Definition slice (i j : nat) (s : str) : str := take (j - i) (drop i s).

Definition digit_char (n : nat) : ascii := ascii_of_nat (48 + n).

Local Open Scope char_scope.

Fixpoint uint_chars (d : uint) : str :=
  match d with
  | Nil => []
  | D0 d => "0" :: uint_chars d
  | D1 d => "1" :: uint_chars d
  | D2 d => "2" :: uint_chars d
  | D3 d => "3" :: uint_chars d
  | D4 d => "4" :: uint_chars d
  | D5 d => "5" :: uint_chars d
  | D6 d => "6" :: uint_chars d
  | D7 d => "7" :: uint_chars d
  | D8 d => "8" :: uint_chars d
  | D9 d => "9" :: uint_chars d
  end.

(** [String(n)] for a non-negative integer: decimal, no leading zero. *)
Definition toString (n : nat) : str := uint_chars (Nat.to_uint n).

(** [parseInt(s)] on a string of decimal digits. *)
Definition parseInt (s : str) : nat :=
  foldl (λ acc c, 10 * acc + (code c - 48))%nat 0%nat s.

End JsString.

Import JsString.

(** ** Completions: normal return or exception *)

Inductive js_error : Type :=
  | TypeError.

Inductive completion (A : Type) : Type :=
  | Normal (a : A)
  | Throw (e : js_error).
Arguments Normal {A} a.
Arguments Throw {A} e.

#[global] Instance completion_ret : MRet completion := λ A a, Normal a.

#[global] Instance completion_bind : MBind completion := λ A B k c,
  match c with
  | Normal a => k a
  | Throw e => Throw e
  end.

(** [try { body } catch { handler }]. *)
Definition try_catch {A} (body handler : completion A) : completion A :=
  match body with
  | Normal a => Normal a
  | Throw _ => handler
  end.

(** ** Template syntax protection *)

Module TemplateGuard.

Local Open Scope char_scope.

Definition TPL_PREFIX : str := "__SRLC_TPL_"%string.

(** The template literal [`__SRLC_TPL_${idx}__`]. *)
Definition token (idx : nat) : str := TPL_PREFIX ++ toString idx ++ "__"%string.

(** The tail [(?:[^}]|\}(?!\}))*\}\}] of the template pattern, as the
    backtracking matcher runs it: the star is greedy, each iteration
    takes one character by the first alternative that applies, and when
    the rest of the pattern fails after an iteration the matcher falls
    back to leaving the star at this position.  The result is the
    matched text and the remaining input. *)
Fixpoint template_tail (s : str) : option (str * str) :=
  let leave :=
    match s with
    | "}" :: "}" :: r => Some (["}"; "}"], r)
    | _ => None
    end in
  match s with
  | c :: s' =>
      if negb (bool_decide (c = "}"))                          (* [^}]      *)
         || (bool_decide (c = "}") && negb (startsWith s' ["}"]))  (* \}(?!\}) *)
      then match template_tail s' with
           | Some (m, r) => Some (c :: m, r)
           | None => leave
           end
      else leave
  | [] => leave
  end.

(** One attempt of [/\{\{(?:[^}]|\}(?!\}))*\}\}/] at the head of [s]. *)
Definition match_template (s : str) : option (str * str) :=
  match s with
  | "{" :: "{" :: s' =>
      '(m, r) ← template_tail s'; Some ("{" :: "{" :: m, r)
  | _ => None
  end.

(** [html.replace(/.../g, callback)] of [protectTemplateSyntax]: scan from
    the left; at a match, call the callback (which pushes the match and
    returns a token) and resume after the match; elsewhere copy the
    character.  [fuel] bounds the number of steps; [length html] is
    enough (lemma [replace_templates_fuel]). *)
Fixpoint replace_templates (fuel : nat) (s : str) (placeholders : list str)
  : str * list str :=
  match s, fuel with
  | [], _ => ([], placeholders)
  | _ :: _, 0 => (s, placeholders)
  | c :: s', S fuel' =>
      match match_template s with
      | Some (m, r) =>
          let idx := length placeholders in
          let '(out, ph) := replace_templates fuel' r (placeholders ++ [m]) in
          (token idx ++ out, ph)
      | None =>
          let '(out, ph) := replace_templates fuel' s' placeholders in
          (c :: out, ph)
      end
  end.

Record guarded := { html : str; placeholders : list str }.

Definition protectTemplateSyntax (html : str) : guarded :=
  let '(protectedHtml, placeholders) := replace_templates (length html) html [] in
  {| html := protectedHtml; placeholders := placeholders |}.

(** The tail [\d*__] of the token pattern after its first digit, greedy
    with backtracking. *)
Fixpoint digits_tail (s : str) : option (str * str) :=
  let leave :=
    match s with
    | "_" :: "_" :: r => Some ([], r)
    | _ => None
    end in
  match s with
  | c :: s' =>
      if is_digit c
      then match digits_tail s' with
           | Some (d, r) => Some (c :: d, r)
           | None => leave
           end
      else leave
  | [] => leave
  end.

(** One attempt of [/__SRLC_TPL_(\d+)__/] at the head of [s]: the captured
    digits and the remaining input. *)
Definition match_token (s : str) : option (str * str) :=
  if startsWith s TPL_PREFIX
  then match drop (length TPL_PREFIX) s with
       | c :: s' =>
           if is_digit c
           then '(d, r) ← digits_tail s'; Some (c :: d, r)
           else None
       | [] => None
       end
  else None.

(** The replacement callback [(_, idx) => placeholders[parseInt(idx)]]; an
    index past the end yields [undefined], which [replace] converts to
    the string ["undefined"]. *)
Definition placeholder_at (placeholders : list str) (idx : str) : str :=
  default (lit "undefined") (placeholders !! parseInt idx).

Fixpoint replace_tokens (fuel : nat) (s : str) (placeholders : list str) : str :=
  match s, fuel with
  | [], _ => []
  | _ :: _, 0 => s
  | c :: s', S fuel' =>
      match match_token s with
      | Some (idx, r) =>
          placeholder_at placeholders idx ++ replace_tokens fuel' r placeholders
      | None => c :: replace_tokens fuel' s' placeholders
      end
  end.

Definition restoreTemplateSyntax (html : str) (placeholders : list str) : str :=
  if bool_decide (length placeholders = 0%nat) then html
  else replace_tokens (length html) html placeholders.

(** [has_marker s]: somewhere in [s] the text [__SRLC_TPL_] is followed by
    a decimal digit. *)
Fixpoint has_marker (s : str) : bool :=
  (startsWith s TPL_PREFIX
   && match drop (length TPL_PREFIX) s with
      | c :: _ => is_digit c
      | [] => false
      end)
  || match s with
     | _ :: s' => has_marker s'
     | [] => false
     end.

(** A sample input: templates that are adjacent, have a third brace, or
    look nested, and the token prefix without a digit after it. *)
Definition sample_article : str :=
  "<p>{{a}}{{b}} {{{c}}} {{d{{e}}f}} __SRLC_TPL_ <a href='{{ url }}'>x</a></p>"%string.

End TemplateGuard.

Import TemplateGuard.


(** ** URL normalisation *)

(** What the code reads from [new URL(href, 'https://placeholder.com')]. *)
Record URL := { hostname : str; pathname : str }.

(** The type of the platform's [URL] constructor with the base fixed to
    ['https://placeholder.com']: a parsed URL, or a [TypeError] for an
    invalid one. *)
Abbreviation url_parser := (str → completion URL).

Section normalizer.

Variable new_URL : url_parser.

Definition is_absolute (href : str) : bool :=
  startsWith href (lit "http://") || startsWith href (lit "https://")
  || startsWith href (lit "//").

(** The literal path of the [catch] branch:
    [href.toLowerCase().split('?')[0].split('#')[0]]. *)
Definition literal_key (href : str) : str :=
  split_first "#" (split_first "?" (toLowerCase href)).

Definition normalizeUrl (href : str) : completion (option str) :=
  if bool_decide (href = []) then mret None
  else
    let href := trim href in
    if bool_decide (href = []) || bool_decide (href = lit "#")
       || startsWith href (lit "javascript:") || startsWith href (lit "mailto:")
       || startsWith href (lit "tel:")
    then mret None
    else
      try_catch
        (path ← (if is_absolute href
                 then url ← new_URL href; mret (pathname url)
                 else mret (split_first "#" (split_first "?" href)));
         let path := toLowerCase path in
         let path := if (1 <? length path) && endsWith path (lit "/")
                     then drop_last path else path in
         mret (Some (if bool_decide (path = []) then toLowerCase href else path)))
        (mret (Some (literal_key href))).

(** [!normalized] in the callers: [null] and the empty string are falsy. *)
Definition falsy (normalized : option str) : bool :=
  match normalized with
  | None => true
  | Some key => bool_decide (key = [])
  end.

End normalizer.

(** A parser for plain URLs, used to run the model on concrete inputs in
    place of the platform's: an optional [http:] or [https:] scheme, then
    [//] and a host that ends at the first [/], [?] or [#], then the path up
    to the first [?] or [#] (["/"] when empty).  An empty host is invalid.
    Anything else is a path relative to the base. *)
Definition plain_URL : url_parser := λ href,
  let rest :=
    if startsWith href (lit "https:") then drop 6 href
    else if startsWith href (lit "http:") then drop 5 href
    else href in
  if startsWith rest (lit "//") then
    let rest := drop 2 rest in
    let host := split_first "/" (split_first "?" (split_first "#" rest)) in
    let path := split_first "?" (split_first "#" (drop (length host) rest)) in
    if bool_decide (host = []) then Throw TypeError
    else mret {| hostname := toLowerCase host;
                 pathname := if bool_decide (path = []) then lit "/" else path |}
  else
    let path := split_first "?" (split_first "#" rest) in
    mret {| hostname := lit "placeholder.com";
            pathname := if startsWith path (lit "/") then path else "/"%char :: path |}.

(** ** Data model *)

(** One anchor occurrence.  [keep] is the only field that changes after
    analysis. *)
Module Link.
Record t := mk {
  id : nat;
  rawIndex : nat;
  href : str;
  normalizedHref : str;
  anchorText : str;
  isImageLink : bool;
  isCtaLink : bool;
  isInHeading : bool;
  isExternal : bool;
  parentTag : str;
  context : str;
  keep : bool;
  rel : str
}.

(** The assignment [link.keep = b]. *)
Definition set_keep (b : bool) (l : t) : t :=
  mk (id l) (rawIndex l) (href l) (normalizedHref l) (anchorText l)
     (isImageLink l) (isCtaLink l) (isInHeading l) (isExternal l)
     (parentTag l) (context l) b (rel l).

(** [!l.isImageLink && !l.isCtaLink]: a text link. *)
Definition is_text (l : t) : bool := negb (isImageLink l) && negb (isCtaLink l).
End Link.

(** The Link objects live in [state.links]; a group refers to them.  A
    reference is the position of the object in [state.links], so that an
    assignment through a group is seen through [state.links] and through
    every other reference to the same object. *)
Abbreviation ref := nat.

Module Group.
Record t := mk {
  normalizedHref : str;
  originalHref : str;
  links : list ref;
  imageCount : nat;
  textCount : nat;
  ctaCount : nat;
  inHeadingCount : nat
}.
End Group.

Inductive warning_type : Type :=
  | broken
  | image_only
  | heading
  | density.

#[global] Instance warning_type_eq_dec : EqDecision warning_type.
Proof. solve_decision. Defined.

(** A warning [{ type, message }].  The message is kept as the values that
    the code interpolates into its fixed wording. *)
Inductive Warning : Type :=
  | BrokenLink (href text : str)
  | ImageOnly (url : str) (imageCount : nat)
  | InHeading (url : str) (inHeadingCount : nat)
  | Density (count : nat) (text : str).

Definition type (w : Warning) : warning_type :=
  match w with
  | BrokenLink _ _ => broken
  | ImageOnly _ _ => image_only
  | InHeading _ _ => heading
  | Density _ _ => density
  end.

Module Stats.
Record t := mk {
  totalLinks : nat;
  uniqueUrls : nat;
  imageLinks : nat;
  ctaLinks : nat;
  textLinks : nat;
  externalLinks : nat
}.
End Stats.

(** The session [state].  [groups] is the object [state.groups] as the list
    of its own properties in enumeration order; [stats] is [None] for the
    empty object [{}] of a fresh session. *)
Module State.
Record t := mk {
  originalHtml : str;
  links : list Link.t;
  groups : list (str * Group.t);
  warnings : list Warning;
  stats : option Stats.t;
  targetSelfCount : nat;
  previewReady : bool
}.

Definition set_links (links : list Link.t) (s : t) : t :=
  mk (originalHtml s) links (groups s) (warnings s) (stats s)
     (targetSelfCount s) (previewReady s).


Definition initial : t := mk [] [] [] [] None 0 false.
End State.

(** ** Auto-strip logic *)

Module AutoStrip.

(** [new Set(normalized).size]. *)
Definition set_size (l : list str) : nat := size (list_to_set l : gset str).

Definition hasDifferentAnchors (textLinks : list Link.t) : bool :=
  if length textLinks <? 2 then false
  else
    let normalized := (λ l, trim (toLowerCase (Link.anchorText l))) <$> textLinks in
    1 <? set_size normalized.

(** The objects behind a list of references. *)
Definition deref (store : list Link.t) (refs : list ref) : list Link.t :=
  omap (λ r, store !! r) refs.

(** [l.keep = b] through the reference [r]. *)
Definition write_keep (r : ref) (b : bool) (store : list Link.t) : list Link.t :=
  alter (Link.set_keep b) r store.

(** [group.links.forEach(l => l.keep = true)]. *)
Definition keep_all (store : list Link.t) (refs : list ref) : list Link.t :=
  foldl (λ store r, write_keep r true store) store refs.

(** The [for (const link of group.links)] loop of the second branch, with
    its flag [firstTextKept]. *)
Fixpoint keep_first (store : list Link.t) (refs : list ref) (firstTextKept : bool)
  : list Link.t :=
  match refs with
  | [] => store
  | r :: refs' =>
      match store !! r with
      | Some link =>
          if Link.isImageLink link || Link.isCtaLink link
          then keep_first (write_keep r true store) refs' firstTextKept
          else if negb firstTextKept
          then keep_first (write_keep r true store) refs' true
          else keep_first (write_keep r false store) refs' firstTextKept
      | None => keep_first store refs' firstTextKept
      end
  end.

(** The body of the loop over [Object.values(state.groups)]. *)
Definition strip_group (store : list Link.t) (group : Group.t) : list Link.t :=
  let textLinks := filter (λ l, Link.is_text l) (deref store (Group.links group)) in
  if (length textLinks =? 2) && hasDifferentAnchors textLinks
  then keep_all store (Group.links group)
  else keep_first store (Group.links group) false.

Definition applyAutoStrip (s : State.t) : State.t :=
  State.set_links (foldl strip_group (State.links s) (snd <$> State.groups s)) s.


(** [toggleLink(id)], as far as the link inventory goes: the early return,
    or the flip of [keep] on the first link with that id.  The rendering
    that follows the flip is not part of the model. *)
Definition toggleLink (id : nat) (s : State.t) : State.t :=
  match list_find (λ l, Link.id l = id) (State.links s) with
  | None => s
  | Some (i, link) =>
      if Link.isImageLink link || Link.isCtaLink link then s
      else State.set_links
             (alter (λ l, Link.set_keep (negb (Link.keep l)) l) i (State.links s)) s
  end.



(** *** Vocabulary of the properties *)

(** Two stores have the same static part when they differ at most in the
    [keep] flags. *)
Definition same_static (st1 st2 : list Link.t) : Prop :=
  Link.set_keep true <$> st1 = Link.set_keep true <$> st2.

(** The test [textLinks.length === 2 && hasDifferentAnchors(textLinks)]
    of [strip_group]. *)
Definition ambiguous (st : list Link.t) (g : Group.t) : bool :=
  let textLinks := filter (λ l, Link.is_text l) (deref st (Group.links g)) in
  (length textLinks =? 2) && hasDifferentAnchors textLinks.

Definition refs_of (gs : list Group.t) : list ref := concat (Group.links <$> gs).

(** The text members of a group, in the order of the group. *)
Definition text_refs (st : list Link.t) (refs : list ref) : list ref :=
  filter (λ r, from_option Link.is_text false (st !! r)) refs.

(** The trimmed, lower-cased anchor text of the link behind [r]. *)
Definition norm_text (st : list Link.t) (r : ref) : option str :=
  (λ l, trim (toLowerCase (Link.anchorText l))) <$> st !! r.

(** The [keep] flag of the link behind [r]. *)
Definition kept (st : list Link.t) (r : ref) : option bool :=
  Link.keep <$> st !! r.

(** An image or CTA link at [j], if any, is kept. *)
Definition protected_kept (st : list Link.t) (j : ref) : Prop :=
  ∀ l, st !! j = Some l →
       Link.isImageLink l || Link.isCtaLink l = true → Link.keep l = true.

(** All references held by the groups of a session. *)
Definition group_refs (s : State.t) : list ref :=
  concat ((λ kg, Group.links kg.2) <$> State.groups s).

(** The inventory invariant of a session: the id of a link is its
    position, and every link is referred to by exactly one group, once. *)
Definition inventory_wf (s : State.t) : Prop :=
  Link.id <$> State.links s = seq 0 (length (State.links s))
  ∧ NoDup (group_refs s)
  ∧ Forall (λ r, r < length (State.links s)) (group_refs s)
  ∧ Forall (λ r, r ∈ group_refs s) (seq 0 (length (State.links s))).

(** The links of the session and the members of each group are in
    document order. *)
Definition document_order (s : State.t) : Prop :=
  Forall (λ kg, StronglySorted lt (Group.links kg.2)) (State.groups s)
  ∧ StronglySorted lt (Link.rawIndex <$> State.links s).

Definition session_wf (s : State.t) : Prop := inventory_wf s ∧ document_order s.

#[global] Instance session_wf_dec s : Decision (session_wf s).
Proof. unfold session_wf, inventory_wf, document_order. apply _. Defined.

End AutoStrip.

Import AutoStrip.

(** ** The document tree *)

(** A parsed container: text, comments and elements.  An element has its
    namespace, its local name, its attributes by name, and its children in
    document order.  The HTML parser puts the content of [<svg>] and of
    [<math>] in their own namespaces, where [tagName] and [className] are
    not those of an HTML element. *)
Module Dom.

Inductive namespace : Type := HTML | SVG | MathML.

#[export] Instance namespace_eq_dec : EqDecision namespace.
Proof. solve_decision. Defined.

#[local] Unset Elimination Schemes.

Inductive node : Type :=
  | Text (data : str)
  | Comment (data : str)
  | Element (namespaceURI : namespace) (localName : str)
            (attributes : gmap str str) (childNodes : list node).

#[local] Set Elimination Schemes.

Definition childNodes (n : node) : list node :=
  match n with
  | Element _ _ _ children => children
  | _ => []
  end.

Definition getAttribute (name : str) (n : node) : option str :=
  match n with
  | Element _ _ attributes _ => attributes !! name
  | _ => None
  end.

Definition hasAttribute (name : str) (n : node) : bool :=
  bool_decide (is_Some (getAttribute name n)).

Definition is_tag (name : str) (n : node) : bool :=
  match n with
  | Element _ localName _ _ => bool_decide (localName = name)
  | _ => false
  end.

(** [el.textContent]: the text of the descendants, comments left out. *)
Fixpoint textContent (n : node) : str :=
  match n with
  | Text data => data
  | Comment _ => []
  | Element _ _ _ children => flat_map textContent children
  end.

(** The elements of the subtree at [n] in document order, [n] first, each
    with its ancestors, the parent first.  [ancestors] are those of [n]. *)
Fixpoint subtree (ancestors : list node) (n : node) : list (node * list node) :=
  match n with
  | Element _ _ _ children => (n, ancestors) :: flat_map (subtree (n :: ancestors)) children
  | _ => []
  end.

(** The elements below [root], without [root]. *)
Definition descendants (root : node) : list (node * list node) :=
  flat_map (subtree [root]) (childNodes root).


(** [root.querySelectorAll(selector)] for a selector that tests one
    element: the matching descendants in document order. *)
Definition querySelectorAll (selector : node → bool) (root : node)
  : list (node * list node) :=
  filter (λ e, selector e.1) (descendants root).


Definition ascii_upper (s : str) : str :=
  map (λ c, if (97 <=? code c) && (code c <=? 122)
            then ascii_of_nat (code c - 32) else c) s.

Definition namespaceURI (n : node) : option namespace :=
  match n with
  | Element ns _ _ _ => Some ns
  | _ => None
  end.

(** [el.tagName]: the qualified name, in ASCII upper case for an HTML
    element and as it is for any other.  Text and comments have none. *)
Definition tagName (n : node) : option str :=
  match n with
  | Element HTML localName _ _ => Some (ascii_upper localName)
  | Element _ localName _ _ => Some localName
  | _ => None
  end.

(** [el.className]: the [class] attribute of an HTML or MathML element;
    for an SVG element it is an [SVGAnimatedString], an object, and the
    result is [None]. *)
Definition className (n : node) : option str :=
  match n with
  | Element SVG _ _ _ => None
  | _ => Some (default [] (getAttribute (lit "class") n))
  end.

(** The selectors of [app.js]. *)
Definition a_href (n : node) : bool := is_tag (lit "a") n && hasAttribute (lit "href") n.
Definition img (n : node) : bool := is_tag (lit "img") n.
Definition p (n : node) : bool := is_tag (lit "p") n.



Definition removeAttribute (name : str) (n : node) : node :=
  match n with
  | Element ns localName attributes children =>
      Element ns localName (delete name attributes) children
  | _ => n
  end.

End Dom.

Import Dom.

(** ** Link classification *)

Module Classifier.

(** [\b] between two neighbouring characters; [None] is an end of the
    text. *)
Definition word_boundary (before after : option ascii) : bool :=
  xorb (from_option is_word false before) (from_option is_word false after).

(** One of [words] at the head of [s], followed by [\b]. *)
Definition word_here (words : list str) (s : str) : bool :=
  existsb (λ w, startsWith s w
                && word_boundary (last w) (head (drop (length w) s))) words.

(** [/\b(w1|w2|...)\b/.test(s)]: a match may start anywhere.  [before] is
    the character in front of [s]. *)
Fixpoint search_word (words : list str) (before : option ascii) (s : str) : bool :=
  (word_boundary before (head s) && word_here words s)
  || match s with
     | c :: s' => search_word words (Some c) s'
     | [] => false
     end.

Definition CTA_CLASSES : list str :=
  [lit "btn"; lit "button"; lit "cta"; lit "shop-now"; lit "buy-now"; lit "add-to-cart"].

Definition CTA_PHRASES : list str :=
  [lit "shop"; lit "buy"; lit "order"; lit "add to cart"; lit "get it";
   lit "check price"; lit "see price"; lit "view deal"; lit "view product";
   lit "learn more"].

Definition CTA_PARENT_CLASSES : list str :=
  [lit "btn"; lit "button"; lit "cta"; lit "shop"; lit "call-to-action"].

Definition isImageLink (a : node) : bool :=
  let imgs := querySelectorAll img a in
  if bool_decide (length imgs = 0) then false
  else
    let textContent :=
      foldl (λ txt node,
               match node with
               | Text data => txt ++ trim data
               | Element _ _ _ _ =>
                   if negb (bool_decide (tagName node = Some (lit "IMG")))
                      && bool_decide (querySelectorAll img node = [])
                   then txt ++ trim (textContent node)
                   else txt
               | Comment _ => txt
               end) [] (childNodes a) in
    bool_decide (length textContent = 0).

(** [(cls || '').toLowerCase()] for a [className]: the call throws a
    [TypeError] on the [SVGAnimatedString] of an SVG element, an object
    without that method. *)
Definition lower_class (cls : option str) : completion str :=
  match cls with
  | Some cls => mret (toLowerCase cls)
  | None => Throw TypeError
  end.

(** [parent] is [a.parentElement].  The phrase pattern has the [i] flag;
    the text is lower-cased before the test, and no other code unit of
    the model folds to a letter of the phrases, so the comparison is
    literal.  The class of the parent is read only when the class and the
    text of the anchor did not decide. *)
Definition isCtaLink (a : node) (parent : option node) : completion bool :=
  cls ← lower_class (className a);
  let txt := trim (toLowerCase (textContent a)) in
  if search_word CTA_CLASSES None cls then mret true
  else if word_here CTA_PHRASES txt then mret true
  else
    parentCls ← match parent with
                | Some parent => lower_class (className parent)
                | None => mret []
                end;
    if search_word CTA_PARENT_CLASSES None parentCls then mret true
    else mret false.

(** The tag names that [/^H[1-6]$/] matches. *)
Definition HEADINGS : list str :=
  [lit "H1"; lit "H2"; lit "H3"; lit "H4"; lit "H5"; lit "H6"].

Definition is_heading (n : node) : bool :=
  match tagName n with
  | Some t => bool_decide (t ∈ HEADINGS)
  | None => false
  end.

(** The walk [cur = el; while (cur) { ...; cur = cur.parentElement }]. *)
Definition isInHeading (el : node) (ancestors : list node) : bool :=
  existsb is_heading (el :: ancestors).

Definition CONTENT_TAGS : list str :=
  [lit "p"; lit "li"; lit "td"; lit "th"; lit "h1"; lit "h2"; lit "h3"; lit "h4";
   lit "h5"; lit "h6"; lit "blockquote"; lit "figcaption"; lit "dd"; lit "dt"].

Fixpoint getParentTag (ancestors : list node) : str :=
  match ancestors with
  | cur :: ancestors' =>
      match tagName cur with
      | Some tag =>
          let t := toLowerCase tag in
          if bool_decide (t ∈ CONTENT_TAGS) then t else getParentTag ancestors'
      | None => getParentTag ancestors'
      end
  | [] => lit "div"
  end.

Definition getContext (linkEl : node) (parent : option node) : str :=
  match parent with
  | None => []
  | Some parent =>
      let text := textContent parent in
      let linkText := textContent linkEl in
      match indexOf text linkText with
      | None => slice 0 80 text
      | Some idx =>
          let start := idx - 30 in
          let end_ := (idx + length linkText + 30) `min` length text in
          let ctx := trim (slice start end_ text) in
          let ctx := if 0 <? start then lit "..." ++ ctx else ctx in
          if end_ <? length text then ctx ++ lit "..." else ctx
      end
  end.

Section external.

Variable new_URL : url_parser.

Definition isExternalLink (href domain : str) : completion bool :=
  if bool_decide (domain = []) then mret false
  else if bool_decide (href = []) || startsWith href (lit "/")
          || startsWith href (lit "#")
  then mret false
  else try_catch
         (url ← new_URL href;
          mret (negb (includes (hostname url) (toLowerCase domain))))
         (mret false).

End external.

End Classifier.

(** ** Plain objects used as maps *)

(** An object literal [{}] whose properties are added by [o[key] = value]:
    the own properties in the order in which [Object.values] and
    [Object.entries] enumerate them (array-index keys first, in numeric
    order, then the other keys in insertion order), over the properties
    inherited from [Object.prototype]. *)
Module JsObject.

(** The value of a canonical numeric string below [2^32 - 1]. *)
Definition array_index (key : str) : option N :=
  if bool_decide (key = []) || (10 <? length key)
     || negb (forallb is_digit key)
     || (startsWith key (lit "0") && (1 <? length key))
  then None
  else
    let n := foldl (λ acc c, 10 * acc + N.of_nat (code c - 48))%N 0%N key in
    if (n <? 4294967295)%N then Some n else None.

Section properties.

Context {V : Type}.

Fixpoint get (key : str) (o : list (str * V)) : option V :=
  match o with
  | [] => None
  | (k, v) :: o' => if bool_decide (k = key) then Some v else get key o'
  end.

(** A new array-index property goes before the first property that is
    not an array index or has a larger index. *)
Fixpoint insert_index (n : N) (key : str) (v : V) (o : list (str * V))
  : list (str * V) :=
  match o with
  | [] => [(key, v)]
  | (k', v') :: o' =>
      match array_index k' with
      | Some n' =>
          if (n' <? n)%N then (k', v') :: insert_index n key v o'
          else (key, v) :: o
      | None => (key, v) :: o
      end
  end.

(** [o[key] = v] for a key that [o] does not have. *)
Definition define (key : str) (v : V) (o : list (str * V)) : list (str * V) :=
  match array_index key with
  | Some n => insert_index n key v o
  | None => o ++ [(key, v)]
  end.

(** A change of the object behind the property [key]. *)
Fixpoint update (key : str) (f : V → V) (o : list (str * V)) : list (str * V) :=
  match o with
  | [] => []
  | (k, v) :: o' =>
      if bool_decide (k = key) then (k, f v) :: o' else (k, v) :: update key f o'
  end.

End properties.

(** The names that every object inherits from [Object.prototype]; their
    values are functions, or the prototype itself for [__proto__]. *)
Definition PROTOTYPE_KEYS : list str :=
  [lit "constructor"; lit "__defineGetter__"; lit "__defineSetter__";
   lit "hasOwnProperty"; lit "__lookupGetter__"; lit "__lookupSetter__";
   lit "isPrototypeOf"; lit "propertyIsEnumerable"; lit "toString";
   lit "valueOf"; lit "__proto__"; lit "toLocaleString"].

Definition inherited (key : str) : bool := bool_decide (key ∈ PROTOTYPE_KEYS).

End JsObject.

(** ** Analysis engine *)

Module Analysis.
Record t := mk {
  links : list Link.t;
  groups : list (str * Group.t);
  warnings : list Warning;
  stats : Stats.t
}.
End Analysis.

Section analyzer.

Variable new_URL : url_parser.

(** What the [forEach] over [allAnchors] builds. *)
Definition inventory : Type := list Link.t * list (str * Group.t) * list Warning.

(** [g.links.push(link)] and the counters. *)
Definition add_to_group (link : Link.t) (g : Group.t) : Group.t :=
  let img := Link.isImageLink link in
  let cta := Link.isCtaLink link in
  Group.mk (Group.normalizedHref g) (Group.originalHref g)
           (Group.links g ++ [Link.id link])
           (if img then S (Group.imageCount g) else Group.imageCount g)
           (if img then Group.textCount g
            else if cta then Group.textCount g else S (Group.textCount g))
           (if img then Group.ctaCount g
            else if cta then S (Group.ctaCount g) else Group.ctaCount g)
           (if Link.isInHeading link then S (Group.inHeadingCount g)
            else Group.inHeadingCount g).

(** The end of the callback, from [if (!groups[normalized])] on.  For a
    key that the object only inherits, [groups[normalized]] is truthy, no
    group is created, and [g.links.push] throws since [g.links] is
    [undefined]. *)
Definition upsert_group (link : Link.t) (groups : list (str * Group.t))
  : completion (list (str * Group.t)) :=
  let normalized := Link.normalizedHref link in
  groups ← match JsObject.get normalized groups with
           | Some _ => mret groups
           | None =>
               if JsObject.inherited normalized then Throw TypeError
               else mret (JsObject.define normalized
                            (Group.mk normalized (Link.href link) [] 0 0 0 0) groups)
           end;
  mret (JsObject.update normalized (add_to_group link) groups).

(** The callback of [allAnchors.forEach((a, rawIndex) => ...)]. *)
Definition analyze_anchor (domain : str) (acc : inventory) (rawIndex : nat)
    (a : node) (ancestors : list node) : completion inventory :=
  let '(links, groups, warnings) := acc in
  let href := default [] (getAttribute (lit "href") a) in
  normalized ← normalizeUrl new_URL href;
  if falsy normalized then
    if negb (bool_decide (href = [])) && negb (bool_decide (href = lit "#"))
    then mret (links, groups,
               warnings ++ [BrokenLink href (take 40 (trim (textContent a)))])
    else mret acc
  else
    let normalized := default [] normalized in
    let img := Classifier.isImageLink a in
    cta ← (if img then mret false else Classifier.isCtaLink a (head ancestors));
    let heading := Classifier.isInHeading a ancestors in
    external ← Classifier.isExternalLink new_URL href domain;
    let parentTag := Classifier.getParentTag ancestors in
    let context := Classifier.getContext a (head ancestors) in
    let anchorText :=
      if img then lit "[image]"
      else let text := trim (textContent a) in
           if bool_decide (text = []) then lit "[empty]" else text in
    let link :=
      Link.mk (length links) rawIndex href normalized anchorText img cta heading
              external parentTag context true
              (default [] (getAttribute (lit "rel") a)) in
    groups ← upsert_group link groups;
    mret (links ++ [link], groups, warnings).

Fixpoint analyze_anchors (domain : str) (anchors : list (node * list node))
    (rawIndex : nat) (acc : inventory) : completion inventory :=
  match anchors with
  | [] => mret acc
  | (a, ancestors) :: anchors' =>
      acc ← analyze_anchor domain acc rawIndex a ancestors;
      analyze_anchors domain anchors' (S rawIndex) acc
  end.

(** The body of [for (const [url, group] of Object.entries(groups))]. *)
Definition group_warnings (entry : str * Group.t) : list Warning :=
  let '(url, group) := entry in
  (if (Group.textCount group =? 0) && (Group.ctaCount group =? 0)
      && (0 <? Group.imageCount group)
   then [ImageOnly url (Group.imageCount group)] else [])
  ++ (if 0 <? Group.inHeadingCount group
      then [InHeading url (Group.inHeadingCount group)] else []).

(** The callback of [container.querySelectorAll('p').forEach(...)]. *)
Definition density_warning (p : node) : list Warning :=
  let count := length (querySelectorAll a_href p) in
  if 5 <=? count
  then [Density count (trim (slice 0 60 (textContent p)))]
  else [].

Definition count_links (f : Link.t → bool) (links : list Link.t) : nat :=
  length (filter (λ l, f l) links).

(** [analyzeHtml], from the parsed [container] on.  [site_domain] is the
    value of the [site-domain] input. *)
Definition analyzeHtml (site_domain : str) (container : node) : completion Analysis.t :=
  let domain := trim site_domain in
  let allAnchors := querySelectorAll a_href container in
  '(links, groups, warnings) ← analyze_anchors domain allAnchors 0 ([], [], []);
  let warnings := warnings ++ flat_map group_warnings groups in
  let warnings :=
    warnings ++ flat_map (λ e, density_warning e.1) (querySelectorAll p container) in
  let totalLinks := length links in
  let uniqueUrls := length groups in
  let imageLinks := count_links Link.isImageLink links in
  let ctaLinks := count_links Link.isCtaLink links in
  let textLinks := totalLinks - imageLinks - ctaLinks in
  let externalLinks := count_links Link.isExternal links in
  mret (Analysis.mk links groups warnings
          (Stats.mk totalLinks uniqueUrls imageLinks ctaLinks textLinks externalLinks)).

(** *** Vocabulary of the properties *)

(** The [broken] warning of an anchor that is left out of the inventory:
    none for an empty href and for [#]. *)
Definition broken_warning (a : node) : list Warning :=
  let href := default [] (getAttribute (lit "href") a) in
  if negb (bool_decide (href = [])) && negb (bool_decide (href = lit "#"))
  then [BrokenLink href (take 40 (trim (textContent a)))]
  else [].

(** The key of an anchor, if it has one. *)
Definition anchor_key (a : node) : option str :=
  match normalizeUrl new_URL (default [] (getAttribute (lit "href") a)) with
  | Normal (Some key) => if bool_decide (key = []) then None else Some key
  | _ => None
  end.

(** [!img && isCtaLink(a)] for an anchor: [isCtaLink] is not called for
    an image link. *)
Definition cta_of (a : node) (ancestors : list node) : completion bool :=
  if Classifier.isImageLink a then mret false
  else Classifier.isCtaLink a (head ancestors).

(** The anchors on which the analysis does not throw: the key is no name
    that every object inherits, and [isCtaLink] returns. *)
Definition analysable (e : node * list node) : Prop :=
  ∀ key, anchor_key e.1 = Some key →
         JsObject.inherited key = false ∧ ∃ cta, cta_of e.1 e.2 = Normal cta.

(** The link that the analysis makes of an anchor, but for its
    position. *)
Definition describes (domain : str) (l : Link.t) (e : node * list node) : Prop :=
  let href := default [] (getAttribute (lit "href") e.1) in
  normalizeUrl new_URL href = Normal (Some (Link.normalizedHref l))
  ∧ Link.href l = href
  ∧ Link.isImageLink l = Classifier.isImageLink e.1
  ∧ cta_of e.1 e.2 = Normal (Link.isCtaLink l)
  ∧ Link.isInHeading l = Classifier.isInHeading e.1 e.2
  ∧ Classifier.isExternalLink new_URL href domain = Normal (Link.isExternal l)
  ∧ Link.parentTag l = Classifier.getParentTag e.2
  ∧ Link.context l = Classifier.getContext e.1 (head e.2)
  ∧ Link.anchorText l
    = (if Classifier.isImageLink e.1 then lit "[image]"
       else if bool_decide (trim (textContent e.1) = []) then lit "[empty]"
            else trim (textContent e.1))
  ∧ Link.rel l = default [] (getAttribute (lit "rel") e.1)
  ∧ Link.keep l = true.

(** The members of a group whose link satisfies [f]. *)
Definition count_members (f : Link.t → bool) (links : list Link.t) (g : Group.t) : nat :=
  length (filter (λ r, from_option f false (links !! r)) (Group.links g)).

(** What holds of each group of an inventory: the group is filed under its
    own key, which is no inherited name; it has a first member, whose href
    is the [originalHref] of the group; every member is a link with the key
    of the group; the counters count the members of each kind. *)
Definition group_ok (links : list Link.t) (kg : str * Group.t) : Prop :=
  Group.normalizedHref kg.2 = kg.1
  ∧ JsObject.inherited kg.1 = false
  ∧ (∃ first rest l, Group.links kg.2 = first :: rest
                     ∧ links !! first = Some l
                     ∧ Link.href l = Group.originalHref kg.2)
  ∧ Forall (λ r, ∃ l, links !! r = Some l ∧ Link.normalizedHref l = kg.1)
           (Group.links kg.2)
  ∧ Group.imageCount kg.2 = count_members Link.isImageLink links kg.2
  ∧ Group.ctaCount kg.2 = count_members Link.isCtaLink links kg.2
  ∧ Group.textCount kg.2 = count_members Link.is_text links kg.2
  ∧ Group.inHeadingCount kg.2 = count_members Link.isInHeading links kg.2.

(** The invariant of the analysis loop on links and groups. *)
Definition inventory_ok (links : list Link.t) (groups : list (str * Group.t)) : Prop :=
  Link.id <$> links = seq 0 (length links)
  ∧ Forall (λ l, Link.isImageLink l && Link.isCtaLink l = false) links
  ∧ NoDup groups.*1
  ∧ Forall (group_ok links) groups
  ∧ Forall (λ l, ∃ g, JsObject.get (Link.normalizedHref l) groups = Some g
                      ∧ Link.id l ∈ Group.links g) links.

(** The [density] warning of a paragraph with five anchors or more. *)
Definition density_of (p : node) : Warning :=
  Density (length (querySelectorAll a_href p)) (trim (slice 0 60 (textContent p))).

(** The member lists are increasing and below [n]. *)
Definition groups_sorted (n : nat) (groups : list (str * Group.t)) : Prop :=
  Forall (λ kg, StronglySorted lt (Group.links kg.2)
                ∧ Forall (λ r, r < n) (Group.links kg.2)) groups.

(** The references held by the groups of an inventory. *)
Definition all_refs (groups : list (str * Group.t)) : list ref :=
  concat ((λ kg, Group.links kg.2) <$> groups).

(** [handleAnalyze] without its rendering.  [input] is the value of the
    text area and [container] the parsed form of its guarded text; an
    empty input is rejected and leaves the session as it is. *)
Definition handleAnalyze (input site_domain : str) (container : node) (s : State.t)
  : completion State.t :=
  let html := trim input in
  if bool_decide (html = []) then mret s
  else
    result ← analyzeHtml site_domain container;
    mret (applyAutoStrip
            (State.mk html (Analysis.links result) (Analysis.groups result)
               (Analysis.warnings result) (Some (Analysis.stats result)) 0 false)).

End analyzer.

(** ** HTML generation *)

(** A walk over sibling nodes, left to right, that threads a counter. *)
Section visit.

Variable visit : node → nat → completion (node * nat).


End visit.

Section regenerator.

Variable new_URL : url_parser.

(** The platform's HTML fragment parser and serialiser.  [parse html] is
    the list of children that the assignment [container.innerHTML = html]
    gives a new [div], and [innerHTML container] is the text that reading
    [container.innerHTML] gives. *)
Variable parse : str → list node.
Variable innerHTML : node → str.












(** *** Vocabulary of the properties *)


(** An anchor with a usable href: [normalizeUrl] gives a key for it. *)
Definition valid_href (a : node) : bool :=
  match normalizeUrl new_URL (default [] (getAttribute (lit "href") a)) with
  | Normal normalized => negb (falsy normalized)
  | Throw _ => false
  end.

End regenerator.







(** ** Sample documents *)

Module Samples.

Local Open Scope string_scope.

Definition elt (tag : string) (attrs : list (string * string)) (children : list node)
  : node :=
  Element HTML (lit tag) (list_to_map ((λ kv, (lit kv.1, lit kv.2)) <$> attrs)) children.

Definition txt (s : string) : node := Text (lit s).

Definition container (children : list node) : node := elt "div" [] children.

(** Four links to [/product] (text, image, text again, CTA) and two links
    to [/guide] with different texts, the first one in a heading. *)
Definition article : node :=
  container
    [ elt "p" []
        [ txt "See the ";
          elt "a" [("href", "/product")] [txt "Widget page"];
          txt " or ";
          elt "a" [("href", "/product"); ("target", "_self")]
              [elt "img" [("src", "w.png")] []];
          txt " or the ";
          elt "a" [("href", "https://x.com/product/")] [txt "Widget page"];
          txt ". ";
          elt "a" [("href", "/product?ref=1"); ("class", "btn primary")] [txt "Get it"] ];
      elt "h2" [] [elt "a" [("href", "/guide")] [txt "Read the guide"]];
      elt "p" []
        [ elt "a" [("href", "/guide#top"); ("target", "_SELF")] [txt "Full guide here"];
          elt "a" [("href", "javascript:void(0)")] [txt "menu"];
          elt "a" [("target", "_self")] [txt "anchor without href"] ] ].




(** An SVG anchor, as the parser makes it of
    [<svg><a href='/x'>x</a></svg>]. *)
Definition svg_anchor : node :=
  container
    [ Element SVG (lit "svg") ∅
        [ Element SVG (lit "a") {[ lit "href" := lit "/x" ]} [txt "x"] ] ].


(** Scenario C: one anchor with a [javascript:] href. *)
Definition scenario_C : node :=
  container [elt "p" [] [elt "a" [("href", "javascript:void(0)")] [txt "menu"]]].

(** A paragraph with five anchors, none of which has a valid href. *)
Definition five_fragments : node :=
  container
    [ elt "p" []
        [ elt "a" [("href", "#")] [txt "1"]; elt "a" [("href", "#")] [txt "2"];
          elt "a" [("href", "#")] [txt "3"]; elt "a" [("href", "#")] [txt "4"];
          elt "a" [("href", "#")] [txt "5"] ] ].

(** Scenario E: a paragraph with five distinct valid anchors, and one
    with four. *)
Definition scenario_E : node :=
  container
    [ elt "p" []
        [ txt "Links: ";
          elt "a" [("href", "/a")] [txt "a"]; elt "a" [("href", "/b")] [txt "b"];
          elt "a" [("href", "/c")] [txt "c"]; elt "a" [("href", "/d")] [txt "d"];
          elt "a" [("href", "/e")] [txt "e"] ];
      elt "p" []
        [ elt "a" [("href", "/a")] [txt "a"]; elt "a" [("href", "/b")] [txt "b"];
          elt "a" [("href", "/c")] [txt "c"]; elt "a" [("href", "/d")] [txt "d"] ] ].

(** The session after [handleAnalyze] on [article]. *)
Definition article_session : State.t :=
  match handleAnalyze plain_URL (lit "<p>...</p>") (lit "x.com") article State.initial with
  | Normal s => s
  | Throw _ => State.initial
  end.



(** Its groups. *)
Definition product_group : Group.t :=
  Group.mk (lit "/product") (lit "/product") [0; 1; 2; 3] 1 2 1 0.

Definition guide_group : Group.t :=
  Group.mk (lit "/guide") (lit "/guide") [4; 5] 0 2 0 1.

End Samples.

Import Samples.

(** * Properties *)

(** ** Decimal numerals *)

Section decimal.

Lemma uint_chars_digits d : Forall (λ c, is_digit c = true) (uint_chars d).
Proof. induction d; simpl; constructor; auto. Qed.

Lemma foldl_uint_chars d acc :
  foldl (λ acc c, 10 * acc + (code c - 48)) acc (uint_chars d) = Nat.of_uint_acc d acc.
Proof.
  revert acc. induction d; intros acc; simpl; [done|..];
    rewrite IHd, Nat.tail_mul_spec; f_equal; lia.
Qed.

Lemma parseInt_of_nat n : parseInt (toString n) = n.
Proof.
  unfold parseInt, toString. rewrite foldl_uint_chars.
  apply DecimalNat.Unsigned.of_to.
Qed.

Lemma of_nat_digits n : Forall (λ c, is_digit c = true) (toString n).
Proof. apply uint_chars_digits. Qed.

Lemma of_nat_nonempty n : toString n ≠ [].
Proof.
  unfold toString. rewrite <- (DecimalNat.Unsigned.of_to n) at 1.
  rewrite DecimalNat.Unsigned.to_of.
  pose proof (DecimalFacts.unorm_nonnil (Nat.to_uint n)) as Hn.
  destruct (unorm (Nat.to_uint n)); simpl; congruence.
Qed.

End decimal.

(** ** Template guard *)

Section template_guard.

Local Open Scope char_scope.

Lemma startsWith_app p s : startsWith (p ++ s) p = true.
Proof.
  induction p as [|a p IH]; simpl; [done|].
  rewrite bool_decide_eq_true_2 by done. by rewrite IH.
Qed.

Lemma startsWith_inv s p : startsWith s p = true → ∃ t, s = p ++ t.
Proof.
  revert s. induction p as [|a p IH]; intros s; simpl; [by eexists|].
  destruct s as [|b s]; [done|].
  intros [Hab Hs]%andb_prop. apply bool_decide_eq_true_1 in Hab as ->.
  destruct (IH _ Hs) as [t ->]. by eexists.
Qed.

Lemma template_tail_split s m r :
  template_tail s = Some (m, r) → s = m ++ r ∧ 2 ≤ length m.
Proof.
  revert m. induction s as [|c s IH]; intros m; simpl; [done|].
  assert (Hleave : match c :: s with
                   | "}" :: "}" :: r0 => Some (["}"; "}"], r0)
                   | _ => None
                   end = Some (m, r) → c :: s = m ++ r ∧ 2 ≤ length m).
  { intros H. destruct (decide (c = "}")) as [->|]; [|by repeat case_match].
    destruct s as [|c' s]; [done|].
    destruct (decide (c' = "}")) as [->|]; [|by repeat case_match].
    by simplify_eq. }
  destruct (_ || _); [|done].
  destruct (template_tail s) as [[m' r']|]; [|done].
  intros [= <- <-]. destruct (IH m' eq_refl) as [-> ?]. simpl. split; [done|lia].
Qed.

Lemma match_template_split s m r :
  match_template s = Some (m, r) → s = m ++ r ∧ 4 ≤ length m.
Proof.
  unfold match_template. intros H.
  destruct s as [|c1 [|c2 s]]; [by repeat case_match..|].
  destruct (decide (c1 = "{")) as [->|]; [|by repeat case_match].
  destruct (decide (c2 = "{")) as [->|]; [|by repeat case_match].
  destruct (template_tail s) as [[m' r']|] eqn:Ht; simplify_eq/=.
  destruct (template_tail_split _ _ _ Ht) as [-> ?]. split; [done|simpl; lia].
Qed.

Lemma digits_tail_digits ds r :
  Forall (λ c, is_digit c = true) ds →
  digits_tail (ds ++ "_" :: "_" :: r) = Some (ds, r).
Proof.
  induction 1 as [|c ds Hc _ IH]; [done|].
  cbn [app digits_tail]. by rewrite Hc, IH.
Qed.

Lemma match_token_token idx r : match_token (token idx ++ r) = Some (toString idx, r).
Proof.
  unfold match_token, token. rewrite <- !app_assoc, startsWith_app, drop_app_length.
  pose proof (of_nat_digits idx) as Hd. pose proof (of_nat_nonempty idx) as Hne.
  destruct (toString idx) as [|c ds]; [done|].
  apply Forall_cons in Hd as [Hc Hds].
  cbn [app]. rewrite Hc. change (lit "__" ++ r) with ("_" :: "_" :: r).
  by rewrite digits_tail_digits.
Qed.

Lemma match_token_inv s d r :
  match_token s = Some (d, r) →
  ∃ c t, s = TPL_PREFIX ++ c :: t ∧ is_digit c = true.
Proof.
  unfold match_token. destruct (startsWith s TPL_PREFIX) eqn:Hp; [|done].
  apply startsWith_inv in Hp as [t ->]. rewrite drop_app_length.
  destruct t as [|c t]; [done|]. destruct (is_digit c) eqn:Hc; [|done].
  intros _. by exists c, t.
Qed.

(** The first character of the guarded text is either the first character
    of a token or the first character of the input. *)
Lemma replace_templates_head fuel s ph c out ph' :
  length s ≤ fuel →
  replace_templates fuel s ph = (c :: out, ph') →
  (is_Some (match_template s) ∧ c = "_" ∧ ∃ t, out = "_" :: t)
  ∨ (match_template s = None
     ∧ ∃ s', s = c :: s' ∧ length s' ≤ fuel - 1
             ∧ replace_templates (fuel - 1) s' ph = (out, ph')).
Proof.
  intros Hlen H. destruct s as [|c0 s]; [by destruct fuel|].
  destruct fuel as [|fuel]; [simpl in Hlen; lia|].
  cbn [replace_templates] in H.
  destruct (match_template (c0 :: s)) as [[m r]|] eqn:Hm.
  - left. destruct (replace_templates fuel r _) as [o p]. simplify_eq/=. eauto.
  - right. destruct (replace_templates fuel s ph) as [o p] eqn:Hr. simplify_eq/=.
    split; [done|]. exists s. rewrite Nat.sub_0_r. split_and!; [done|lia|done].
Qed.

Lemma has_marker_cons c s : has_marker (c :: s) = false → has_marker s = false.
Proof. cbn [has_marker]. by intros [_ ?]%orb_false_elim. Qed.

Lemma has_marker_app m r : has_marker (m ++ r) = false → has_marker r = false.
Proof. induction m as [|c m IH]; [done|]. intros H%has_marker_cons. auto. Qed.

Lemma has_marker_prefix c t : is_digit c = true → has_marker (TPL_PREFIX ++ c :: t) = true.
Proof. intros Hc. unfold TPL_PREFIX. cbn. by rewrite Hc. Qed.

(** Where the input has no template and no marker, the guarded text has no
    token: every token of the guarded text was put there by the guard. *)
Lemma no_spurious_token fuel s ph out ph' :
  length s ≤ fuel →
  has_marker s = false →
  match_template s = None →
  replace_templates fuel s ph = (out, ph') →
  match_token out = None.
Proof.
  intros Hlen Hmark Hnone Hrep.
  destruct (match_token out) as [[d r]|] eqn:Htok; [exfalso|done].
  apply match_token_inv in Htok as (c & t & -> & Hc).
  cbn [TPL_PREFIX lit list_ascii_of_string app] in Hrep.
  apply replace_templates_head in Hrep as [([? Hs] & _)|(_ & s1 & -> & Hlen1 & Hrep)];
    [congruence| |done].
  clear Hnone.
  assert (Hcu : c ≠ "_") by (intros ->; done).
  repeat match goal with
  | H : replace_templates _ _ _ = (_ :: _, _) |- _ =>
      apply replace_templates_head in H
        as [(_ & ? & ? & ?)|(_ & ? & -> & ? & H)]; [simplify_eq| |done]
  end.
  match type of Hmark with
  | has_marker ?l = false =>
      assert (has_marker l = true) by (by apply (has_marker_prefix c))
  end.
  congruence.
Qed.

Lemma replace_tokens_match fuel s idx r ph :
  match_token s = Some (idx, r) →
  replace_tokens (S fuel) s ph = placeholder_at ph idx ++ replace_tokens fuel r ph.
Proof. intros H. destruct s; [done|]. cbn [replace_tokens]. by rewrite H. Qed.

Lemma replace_templates_grows fuel s ph out ph' :
  length s ≤ fuel →
  replace_templates fuel s ph = (out, ph') →
  length ph ≤ length ph' ∧ (length ph' = length ph → out = s).
Proof.
  revert s ph out ph'. induction fuel as [|fuel IH]; intros s ph out ph' Hlen H.
  { destruct s; [|simpl in Hlen; lia]. by simplify_eq/=. }
  destruct s as [|c s]; [by simplify_eq/=|].
  cbn [replace_templates] in H. simpl in Hlen.
  destruct (match_template (c :: s)) as [[m r]|] eqn:Hm.
  - destruct (replace_templates fuel r _) as [o p] eqn:Hr. simplify_eq.
    apply match_template_split in Hm as [Hs Hm4].
    apply IH in Hr as [Hle _]; [|apply (f_equal length) in Hs; rewrite length_app in Hs;
                                 simpl in Hs; lia].
    rewrite length_app in Hle. simpl in Hle. lia.
  - destruct (replace_templates fuel s ph) as [o p] eqn:Hr. simplify_eq.
    apply IH in Hr as [Hle Heq]; [|lia]. split; [done|]. intros ?. f_equal. auto.
Qed.

(** The guard and its inverse, step by step: the placeholders only grow,
    and restoring the guarded text with any extension of the final
    placeholder list gives the input back. *)
Lemma replace_tokens_templates fuel s ph out ph' :
  length s ≤ fuel →
  has_marker s = false →
  replace_templates fuel s ph = (out, ph') →
  ∃ ms, ph' = ph ++ ms
        ∧ ∀ rest fuel', length out ≤ fuel' →
            replace_tokens fuel' out (ph ++ ms ++ rest) = s.
Proof.
  revert s ph out ph'. induction fuel as [|fuel IH]; intros s ph out ph' Hlen Hmark H.
  { destruct s; [|simpl in Hlen; lia]. simplify_eq/=. exists [].
    split; [by rewrite app_nil_r|]. by intros ? []. }
  destruct s as [|c s].
  { simplify_eq/=. exists []. split; [by rewrite app_nil_r|]. by intros ? []. }
  pose proof H as Hall.
  cbn [replace_templates] in H. simpl in Hlen.
  destruct (match_template (c :: s)) as [[m r]|] eqn:Hm.
  - destruct (replace_templates fuel r _) as [o p] eqn:Hr. simplify_eq.
    apply match_template_split in Hm as [Hs Hm4]. rewrite Hs in Hmark.
    apply IH in Hr as (ms & -> & Hrest); [|apply (f_equal length) in Hs;
      rewrite length_app in Hs; simpl in Hs; lia|by eapply has_marker_app].
    exists (m :: ms). split; [by rewrite <- app_assoc|].
    intros rest fuel' Hfuel. rewrite Hs.
    destruct fuel' as [|fuel']; [unfold token in Hfuel; simpl in Hfuel; lia|].
    rewrite (replace_tokens_match _ _ _ _ _ (match_token_token _ _)).
    unfold placeholder_at. cbn [app].
    rewrite parseInt_of_nat, list_lookup_middle by done. cbn [default].
    f_equal. specialize (Hrest rest fuel').
    rewrite <- !app_assoc in Hrest. apply Hrest.
    unfold token in Hfuel. rewrite !length_app in Hfuel. simpl in Hfuel.
    lia.
  - destruct (replace_templates fuel s ph) as [o p] eqn:Hr. simplify_eq.
    assert (match_token (c :: o) = None) as Hno.
    { eapply no_spurious_token; [|done..]. simpl. lia. }
    apply IH in Hr as (ms & -> & Hrest); [|lia|by eapply has_marker_cons].
    exists ms. split; [done|]. intros rest fuel' Hfuel.
    destruct fuel' as [|fuel']; [simpl in Hfuel; lia|].
    cbn [replace_tokens]. rewrite Hno. f_equal. apply Hrest. simpl in Hfuel. lia.
Qed.

(** C1, as amended.  Round trip of the template guard: restoring the
    guarded text of [h] with the placeholders recorded for [h] gives [h]
    back, for every [h] in which the token prefix [__SRLC_TPL_] is nowhere
    followed by a decimal digit, and for every [h] without any template
    expression (the placeholder list is then empty).  The number and the
    position of the template expressions do not matter. *)
Theorem template_roundtrip (h : str) :
  has_marker h = false ∨ placeholders (protectTemplateSyntax h) = [] →
  restoreTemplateSyntax (html (protectTemplateSyntax h))
                        (placeholders (protectTemplateSyntax h)) = h.
Proof.
  unfold protectTemplateSyntax, restoreTemplateSyntax.
  destruct (replace_templates (length h) h []) as [out ph] eqn:Hrep. cbn [html placeholders].
  intros Hyp. case_bool_decide as Hph.
  - by apply replace_templates_grows in Hrep as [_ ->].
  - destruct Hyp as [Hmark| ->]; [|done].
    apply replace_tokens_templates in Hrep as (ms & -> & Hrest); [|done..].
    specialize (Hrest [] (length out) (le_n _)). by rewrite app_nil_r in Hrest.
Qed.

Lemma template_roundtrip_witness :
  has_marker sample_article = false
  ∧ length (placeholders (protectTemplateSyntax sample_article)) = 5
  ∧ restoreTemplateSyntax (html (protectTemplateSyntax sample_article))
                          (placeholders (protectTemplateSyntax sample_article))
    = sample_article.
Proof.
  split; [reflexivity|]. split; [reflexivity|].
  apply (template_roundtrip sample_article). left. reflexivity.
Defined.

(** C1 as stated fails: an input that already contains the text of a
    token is not restored.  Here the literal [__SRLC_TPL_0__] is replaced
    by the first template expression. *)
Lemma template_roundtrip_counterexample :
  let h : str := "__SRLC_TPL_0__{{x}}"%string in
  restoreTemplateSyntax (html (protectTemplateSyntax h))
                        (placeholders (protectTemplateSyntax h))
  = lit "{{x}}{{x}}"
  ∧ restoreTemplateSyntax (html (protectTemplateSyntax h))
                          (placeholders (protectTemplateSyntax h)) ≠ h.
Proof. split; [reflexivity|]. by vm_compute. Qed.

End template_guard.

(** ** URL normalisation *)

Section normalize_url.

Variable new_URL : url_parser.

Lemma normalizeUrl_returns (href : str) :
  ∃ key : option str, normalizeUrl new_URL href = Normal key.
Proof.
  unfold normalizeUrl. repeat case_match; try by eexists.
  all: destruct (new_URL (trim href)); by eexists.
Qed.


Lemma normalizeUrl_ext (other_URL : url_parser) href :
  new_URL (trim href) = other_URL (trim href) →
  normalizeUrl new_URL href = normalizeUrl other_URL href.
Proof. unfold normalizeUrl. by intros ->. Qed.

(** C4, as amended.  The absolute form, the root-relative form and the
    root-relative form with a query and a fragment of the path [/a] get
    the same key ["/a"], given that the [URL] constructor reports the path
    ["/a/"] for the absolute form.  The relative form ["a/"] gets the key
    ["a"], without the leading slash: relative references are not
    resolved. *)
Theorem normalizeUrl_equivalence (url : URL) :
  new_URL (lit "https://x.com/a/") = Normal url →
  pathname url = lit "/a/" →
  normalizeUrl new_URL (lit "https://x.com/a/") = Normal (Some (lit "/a"))
  ∧ normalizeUrl new_URL (lit "/a") = Normal (Some (lit "/a"))
  ∧ normalizeUrl new_URL (lit "/a?x=1#y") = Normal (Some (lit "/a"))
  ∧ normalizeUrl new_URL (lit "a/") = Normal (Some (lit "a")).
Proof.
  intros Hurl Hpath. split_and!; [|reflexivity..].
  rewrite (normalizeUrl_ext (λ _, Normal url)).
  - destruct url as [host path]. simpl in Hpath. subst path. by vm_compute.
  - by replace (trim (lit "https://x.com/a/")) with (lit "https://x.com/a/")
      by (by vm_compute).
Qed.

End normalize_url.


Lemma normalizeUrl_equivalence_witness :
  plain_URL (lit "https://x.com/a/")
  = Normal {| hostname := lit "x.com"; pathname := lit "/a/" |}
  ∧ normalizeUrl plain_URL (lit "https://x.com/a/") = Normal (Some (lit "/a"))
  ∧ normalizeUrl plain_URL (lit "a/") = Normal (Some (lit "a")).
Proof.
  split; [reflexivity|].
  pose proof (normalizeUrl_equivalence plain_URL
                {| hostname := lit "x.com"; pathname := lit "/a/" |} eq_refl eq_refl)
    as (H1 & _ & _ & H4).
  exact (conj H1 H4).
Defined.

(** C4 as stated fails: the relative form ["a/"] and the root-relative
    form ["/a"] get different keys. *)
Lemma normalizeUrl_equivalence_counterexample :
  normalizeUrl plain_URL (lit "a/") = Normal (Some (lit "a"))
  ∧ normalizeUrl plain_URL (lit "/a") = Normal (Some (lit "/a"))
  ∧ normalizeUrl plain_URL (lit "a/") ≠ normalizeUrl plain_URL (lit "/a").
Proof. split; [reflexivity|]. split; [reflexivity|]. by vm_compute. Qed.

(** ** Auto-strip: what a run reads and what it writes *)

Section auto_strip.

Implicit Types (st : list Link.t) (refs : list ref) (g : Group.t) (l : Link.t).

Lemma set_keep_set_keep b b' l : Link.set_keep b (Link.set_keep b' l) = Link.set_keep b l.
Proof. by destruct l. Qed.

Lemma set_keep_static b l1 l2 :
  Link.set_keep true l1 = Link.set_keep true l2 → Link.set_keep b l1 = Link.set_keep b l2.
Proof.
  intros H. rewrite <- (set_keep_set_keep b true l1), <- (set_keep_set_keep b true l2).
  by rewrite H.
Qed.

Lemma static_fields l1 l2 :
  Link.set_keep true l1 = Link.set_keep true l2 →
  Link.isImageLink l1 = Link.isImageLink l2
  ∧ Link.isCtaLink l1 = Link.isCtaLink l2
  ∧ Link.anchorText l1 = Link.anchorText l2
  ∧ Link.id l1 = Link.id l2.
Proof. destruct l1, l2. unfold Link.set_keep. simpl. by intros [=]. Qed.

Lemma same_static_refl st : same_static st st.
Proof. done. Qed.

Lemma same_static_sym st1 st2 : same_static st1 st2 → same_static st2 st1.
Proof. done. Qed.

Lemma same_static_trans st1 st2 st3 :
  same_static st1 st2 → same_static st2 st3 → same_static st1 st3.
Proof. unfold same_static. congruence. Qed.

Lemma same_static_length st1 st2 : same_static st1 st2 → length st1 = length st2.
Proof. intros H. apply (f_equal length) in H. by rewrite !length_fmap in H. Qed.

Lemma same_static_lookup st1 st2 j :
  same_static st1 st2 →
  match st1 !! j, st2 !! j with
  | Some l1, Some l2 => Link.set_keep true l1 = Link.set_keep true l2
  | None, None => True
  | _, _ => False
  end.
Proof.
  intros H. apply (f_equal (.!! j)) in H. rewrite !list_lookup_fmap in H.
  destruct (st1 !! j), (st2 !! j); simpl in H; try done; congruence.
Qed.

Lemma write_keep_static r b st : same_static (write_keep r b st) st.
Proof.
  unfold same_static, write_keep. apply list_eq. intros j.
  rewrite !list_lookup_fmap, list_lookup_alter. case_decide; [subst|done].
  destruct (st !! j); [simpl|done]. by rewrite set_keep_set_keep.
Qed.

Lemma write_keep_agree r b st1 st2 j :
  same_static st1 st2 →
  j = r ∨ st1 !! j = st2 !! j →
  write_keep r b st1 !! j = write_keep r b st2 !! j.
Proof.
  intros Hs Hj. unfold write_keep. rewrite !list_lookup_alter.
  case_decide as Hr; [subst j|by destruct Hj].
  pose proof (same_static_lookup _ _ r Hs) as Hl.
  destruct (st1 !! r), (st2 !! r); try done. simpl. f_equal. by apply set_keep_static.
Qed.

Lemma write_keep_both r b st1 st2 :
  same_static st1 st2 → same_static (write_keep r b st1) (write_keep r b st2).
Proof.
  intros H. eapply same_static_trans; [apply write_keep_static|].
  eapply same_static_trans; [done|]. apply same_static_sym, write_keep_static.
Qed.

Lemma write_keep_other r b st j : j ≠ r → write_keep r b st !! j = st !! j.
Proof. intros. unfold write_keep. by rewrite list_lookup_alter_ne. Qed.

(** *** The loop that keeps the first text link *)

Lemma keep_first_static refs : ∀ st f, same_static (keep_first st refs f) st.
Proof.
  induction refs as [|r refs IH]; intros st f; simpl; [done|].
  repeat case_match; try apply IH;
    (eapply same_static_trans; [apply IH|apply write_keep_static]).
Qed.

Lemma keep_first_untouched refs : ∀ st f j,
  j ∉ refs → keep_first st refs f !! j = st !! j.
Proof.
  induction refs as [|r refs IH]; intros st f j Hj; simpl; [done|].
  apply not_elem_of_cons in Hj as [Hjr Hj].
  repeat case_match; rewrite IH by done; try done; by apply write_keep_other.
Qed.

Lemma keep_first_agree refs : ∀ st1 st2 f j,
  same_static st1 st2 →
  j ∈ refs ∨ st1 !! j = st2 !! j →
  keep_first st1 refs f !! j = keep_first st2 refs f !! j.
Proof.
  induction refs as [|r refs IH]; intros st1 st2 f j Hs Hj; simpl.
  { destruct Hj as [Hj|Hj]; [by apply elem_of_nil in Hj|done]. }
  assert (∀ b, j ∈ refs ∨ write_keep r b st1 !! j = write_keep r b st2 !! j) as Hw.
  { intros b. destruct Hj as [[->|Hj]%elem_of_cons|Hj]; [right|by left|right];
      apply write_keep_agree; auto. }
  pose proof (same_static_lookup _ _ r Hs) as Hl.
  destruct (st1 !! r) as [l1|] eqn:H1, (st2 !! r) as [l2|] eqn:H2; try done.
  - apply static_fields in Hl as (-> & -> & _).
    repeat case_match; apply IH; auto using write_keep_both.
  - apply IH; [done|]. destruct Hj as [[->|Hj]%elem_of_cons|Hj]; [right|by left|by right].
    congruence.
Qed.

(** *** The loop that keeps every link of the group *)

Lemma keep_all_static refs : ∀ st, same_static (keep_all st refs) st.
Proof.
  induction refs as [|r refs IH]; intros st; simpl; [done|].
  eapply same_static_trans; [apply IH|apply write_keep_static].
Qed.

Lemma keep_all_untouched refs : ∀ st j, j ∉ refs → keep_all st refs !! j = st !! j.
Proof.
  induction refs as [|r refs IH]; intros st j Hj; simpl; [done|].
  apply not_elem_of_cons in Hj as [Hjr Hj]. unfold keep_all in IH.
  rewrite IH by done. by apply write_keep_other.
Qed.

Lemma keep_all_agree refs : ∀ st1 st2 j,
  same_static st1 st2 →
  j ∈ refs ∨ st1 !! j = st2 !! j →
  keep_all st1 refs !! j = keep_all st2 refs !! j.
Proof.
  induction refs as [|r refs IH]; intros st1 st2 j Hs Hj; simpl.
  { destruct Hj as [Hj|Hj]; [by apply elem_of_nil in Hj|done]. }
  apply IH; [by apply write_keep_both|].
  destruct Hj as [[->|Hj]%elem_of_cons|Hj]; [right|by left|right];
    apply write_keep_agree; auto.
Qed.

(** *** One group *)

Lemma strip_group_unfold st g :
  strip_group st g
  = if ambiguous st g then keep_all st (Group.links g)
    else keep_first st (Group.links g) false.
Proof. done. Qed.

Lemma deref_cons st r refs :
  deref st (r :: refs)
  = match st !! r with Some l => l :: deref st refs | None => deref st refs end.
Proof. done. Qed.

Lemma deref_static st1 st2 refs :
  same_static st1 st2 →
  Link.set_keep true <$> deref st1 refs = Link.set_keep true <$> deref st2 refs.
Proof.
  intros Hs. induction refs as [|r refs IH]; [done|].
  rewrite !deref_cons. pose proof (same_static_lookup _ _ r Hs) as Hl.
  destruct (st1 !! r), (st2 !! r); try done. rewrite !fmap_cons. by f_equal.
Qed.

Lemma filter_text_static (L1 L2 : list Link.t) :
  Link.set_keep true <$> L1 = Link.set_keep true <$> L2 →
  Link.set_keep true <$> filter (λ l, Link.is_text l) L1
  = Link.set_keep true <$> filter (λ l, Link.is_text l) L2.
Proof.
  revert L2. induction L1 as [|l1 L1 IH]; intros [|l2 L2] H; try done.
  rewrite !fmap_cons in H.
  pose proof (f_equal head H) as Hl. pose proof (f_equal tail H) as HL.
  simpl in Hl, HL. apply (inj Some) in Hl. clear H.
  assert (Link.is_text l1 = Link.is_text l2) as Ht.
  { unfold Link.is_text. by destruct (static_fields l1 l2 Hl) as (-> & -> & _). }
  rewrite !filter_cons, Ht. case_decide; rewrite ?fmap_cons; [f_equal; [done|]|]; by apply IH.
Qed.

Lemma hasDifferentAnchors_static (L1 L2 : list Link.t) :
  Link.set_keep true <$> L1 = Link.set_keep true <$> L2 →
  hasDifferentAnchors L1 = hasDifferentAnchors L2.
Proof.
  intros H. unfold hasDifferentAnchors.
  assert (length L1 = length L2) as ->.
  { apply (f_equal length) in H. by rewrite !length_fmap in H. }
  assert (∀ L : list Link.t,
    (λ l, trim (toLowerCase (Link.anchorText l))) <$> L
    = (λ l, trim (toLowerCase (Link.anchorText l))) <$> (Link.set_keep true <$> L)) as Hn.
  { intros L. rewrite <- list_fmap_compose. apply list_fmap_ext. by intros ? []. }
  by rewrite (Hn L1), (Hn L2), H.
Qed.

Lemma ambiguous_static st1 st2 g :
  same_static st1 st2 → ambiguous st1 g = ambiguous st2 g.
Proof.
  intros Hs. unfold ambiguous.
  pose proof (filter_text_static _ _ (deref_static _ _ (Group.links g) Hs)) as Hf.
  rewrite (hasDifferentAnchors_static _ _ Hf).
  apply (f_equal length) in Hf. rewrite !length_fmap in Hf. by rewrite Hf.
Qed.

Lemma strip_group_static st g : same_static (strip_group st g) st.
Proof.
  rewrite strip_group_unfold. case_match; [apply keep_all_static|apply keep_first_static].
Qed.

Lemma strip_group_untouched st g j :
  j ∉ Group.links g → strip_group st g !! j = st !! j.
Proof.
  intros. rewrite strip_group_unfold.
  case_match; [by apply keep_all_untouched|by apply keep_first_untouched].
Qed.

Lemma strip_group_agree st1 st2 g j :
  same_static st1 st2 →
  j ∈ Group.links g ∨ st1 !! j = st2 !! j →
  strip_group st1 g !! j = strip_group st2 g !! j.
Proof.
  intros Hs Hj. rewrite !strip_group_unfold, (ambiguous_static _ _ _ Hs).
  case_match; [by apply keep_all_agree|by apply keep_first_agree].
Qed.

(** *** All groups *)

Lemma strip_groups_static gs : ∀ st, same_static (foldl strip_group st gs) st.
Proof.
  induction gs as [|g gs IH]; intros st; simpl; [done|].
  eapply same_static_trans; [apply IH|apply strip_group_static].
Qed.

Lemma strip_groups_untouched gs : ∀ st j,
  j ∉ refs_of gs → foldl strip_group st gs !! j = st !! j.
Proof.
  induction gs as [|g gs IH]; intros st j Hj; simpl; [done|].
  unfold refs_of in Hj. simpl in Hj. apply not_elem_of_app in Hj as [Hg Hj].
  rewrite IH by done. by apply strip_group_untouched.
Qed.

Lemma strip_groups_agree gs : ∀ st1 st2 j,
  same_static st1 st2 →
  j ∈ refs_of gs ∨ st1 !! j = st2 !! j →
  foldl strip_group st1 gs !! j = foldl strip_group st2 gs !! j.
Proof.
  induction gs as [|g gs IH]; intros st1 st2 j Hs Hj; simpl.
  { destruct Hj as [Hj|Hj]; [by apply elem_of_nil in Hj|done]. }
  apply IH.
  { eapply same_static_trans; [apply strip_group_static|].
    eapply same_static_trans; [done|apply same_static_sym, strip_group_static]. }
  unfold refs_of in Hj. simpl in Hj.
  destruct Hj as [[Hj|Hj]%elem_of_app|Hj]; [right|by left|right];
    apply strip_group_agree; auto.
Qed.

Lemma group_refs_refs_of s : group_refs s = refs_of (snd <$> State.groups s).
Proof. unfold group_refs, refs_of. by rewrite <- list_fmap_compose. Qed.

(** C7.  Auto-strip is idempotent: a second run, straight after the
    first, changes nothing, whatever the session state. *)
Theorem applyAutoStrip_idempotent (s : State.t) :
  applyAutoStrip (applyAutoStrip s) = applyAutoStrip s.
Proof.
  unfold applyAutoStrip, State.set_links. destruct s as [oh st gs ws sts tsc pr].
  cbn [State.links State.groups State.originalHtml State.warnings State.stats
       State.targetSelfCount State.previewReady].
  f_equal. apply list_eq. intros j.
  apply strip_groups_agree; [apply strip_groups_static|].
  destruct (decide (j ∈ refs_of gs.*2)) as [Hj|Hj]; [by left|right].
  by apply strip_groups_untouched.
Qed.

(** *** Image and CTA links *)

Lemma write_true_protected r st j :
  j = r ∨ protected_kept st j → protected_kept (write_keep r true st) j.
Proof.
  intros Hj l. unfold write_keep. rewrite list_lookup_alter.
  case_decide as Hr; [subst j|destruct Hj; [done|auto]].
  destruct (st !! r); intros; by simplify_eq/=.
Qed.

Lemma write_text_protected r b st j l0 :
  st !! r = Some l0 →
  Link.isImageLink l0 || Link.isCtaLink l0 = false →
  j = r ∨ protected_kept st j → protected_kept (write_keep r b st) j.
Proof.
  intros Hr Ht Hj l. unfold write_keep. rewrite list_lookup_alter.
  case_decide as Hjr; [subst j|destruct Hj; [done|auto]].
  rewrite Hr. intros [= <-]. destruct l0. simpl in *. congruence.
Qed.

Lemma keep_first_protected refs : ∀ st f j,
  j ∈ refs ∨ protected_kept st j → protected_kept (keep_first st refs f) j.
Proof.
  induction refs as [|r refs IH]; intros st f j Hj; simpl.
  { destruct Hj as [Hj|Hj]; [by apply elem_of_nil in Hj|done]. }
  assert (j ∈ refs ∨ j = r ∨ protected_kept st j) as Hj'.
  { destruct Hj as [[->|Hj]%elem_of_cons|Hj]; auto. }
  destruct (st !! r) as [l0|] eqn:Hr.
  - destruct (Link.isImageLink l0 || Link.isCtaLink l0) eqn:Hp.
    + apply IH. destruct Hj' as [?|Hj']; [by left|right]. by apply write_true_protected.
    + case_match; apply IH; (destruct Hj' as [?|Hj']; [by left|right]);
        by eapply write_text_protected.
  - apply IH. destruct Hj' as [?|[->|?]]; [by left|right|by right].
    intros l. by rewrite Hr.
Qed.

Lemma keep_all_protected refs : ∀ st j,
  j ∈ refs ∨ protected_kept st j → protected_kept (keep_all st refs) j.
Proof.
  induction refs as [|r refs IH]; intros st j Hj; simpl.
  { destruct Hj as [Hj|Hj]; [by apply elem_of_nil in Hj|done]. }
  apply IH. destruct Hj as [[->|Hj]%elem_of_cons|Hj]; [right|by left|right];
    apply write_true_protected; auto.
Qed.

Lemma strip_group_protected st g j :
  j ∈ Group.links g ∨ protected_kept st j → protected_kept (strip_group st g) j.
Proof.
  intros. rewrite strip_group_unfold.
  case_match; [by apply keep_all_protected|by apply keep_first_protected].
Qed.

Lemma strip_groups_protected gs : ∀ st j,
  j ∈ refs_of gs ∨ protected_kept st j → protected_kept (foldl strip_group st gs) j.
Proof.
  induction gs as [|g gs IH]; intros st j Hj; simpl.
  { destruct Hj as [Hj|Hj]; [by apply elem_of_nil in Hj|done]. }
  apply IH. unfold refs_of in Hj. simpl in Hj.
  destruct Hj as [[Hj|Hj]%elem_of_app|Hj]; [right|by left|right];
    apply strip_group_protected; auto.
Qed.

(** C3.  After auto-strip every image link and every CTA link of the
    session is kept, however many of them a group has. *)
Theorem applyAutoStrip_keeps_protected (s : State.t) (l : Link.t) :
  session_wf s →
  l ∈ State.links (applyAutoStrip s) →
  Link.isImageLink l || Link.isCtaLink l = true →
  Link.keep l = true.
Proof.
  intros [(_ & _ & _ & Hcover) _] [j Hj]%list_elem_of_lookup Hp.
  unfold applyAutoStrip, State.set_links in Hj. cbn [State.links] in Hj.
  eapply strip_groups_protected; [|done..]. left.
  rewrite <- group_refs_refs_of.
  apply lookup_lt_Some in Hj.
  rewrite (same_static_length _ _ (strip_groups_static _ _)) in Hj.
  rewrite Forall_forall in Hcover. apply Hcover. apply elem_of_seq. lia.
Qed.

(** *** Text links *)

Lemma text_refs_cons st r refs :
  text_refs st (r :: refs)
  = if from_option Link.is_text false (st !! r)
    then r :: text_refs st refs else text_refs st refs.
Proof. unfold text_refs. rewrite filter_cons. by destruct (from_option _ _ _). Qed.

Lemma text_refs_static st1 st2 refs :
  same_static st1 st2 → text_refs st1 refs = text_refs st2 refs.
Proof.
  intros Hs. apply list_filter_iff. intros r.
  pose proof (same_static_lookup _ _ r Hs) as Hl.
  destruct (st1 !! r) as [l1|], (st2 !! r) as [l2|]; try done. simpl.
  unfold Link.is_text. by destruct (static_fields _ _ Hl) as (-> & -> & _).
Qed.

Lemma norm_text_static st1 st2 r :
  same_static st1 st2 → norm_text st1 r = norm_text st2 r.
Proof.
  intros Hs. unfold norm_text. pose proof (same_static_lookup _ _ r Hs) as Hl.
  destruct (st1 !! r) as [l1|], (st2 !! r) as [l2|]; try done. simpl.
  by destruct (static_fields _ _ Hl) as (_ & _ & -> & _).
Qed.

Lemma text_refs_elem st refs r :
  r ∈ text_refs st refs ↔ r ∈ refs ∧ ∃ l, st !! r = Some l ∧ Link.is_text l = true.
Proof.
  unfold text_refs. rewrite list_elem_of_filter. split.
  - intros [Ht ?]. split; [done|]. destruct (st !! r) as [l|]; [|done].
    exists l. split; [done|]. by apply Is_true_eq_true.
  - intros [? (l & -> & Ht)]. split; [|done]. simpl. by rewrite Ht.
Qed.

(** The second branch: the first text link is kept, the later ones are
    not; with the flag already set, none is. *)
Lemma keep_first_policy refs : ∀ st f i r,
  NoDup refs →
  text_refs st refs !! i = Some r →
  kept (keep_first st refs f) r = Some (bool_decide (i = 0) && negb f).
Proof.
  induction refs as [|r0 refs IH]; intros st f i r Hnd Hi; [done|].
  apply NoDup_cons in Hnd as [Hr0 Hnd].
  rewrite text_refs_cons in Hi. cbn [keep_first].
  destruct (st !! r0) as [l0|] eqn:Hl0; cbn [from_option] in Hi; [|by apply IH].
  unfold Link.is_text in Hi.
  assert (∀ b, text_refs (write_keep r0 b st) refs = text_refs st refs) as Ht
    by (intros; apply text_refs_static, write_keep_static).
  assert (∀ b f', kept (keep_first (write_keep r0 b st) refs f') r0 = Some b) as Hw.
  { intros b f'. unfold kept. rewrite keep_first_untouched by done.
    unfold write_keep. rewrite list_lookup_alter_eq, Hl0. by destruct l0. }
  destruct (Link.isImageLink l0), (Link.isCtaLink l0); cbn [negb andb orb] in *;
    try (apply IH; [done|by rewrite Ht]).
  destruct f; cbn [negb]; (destruct i as [|i]; [injection Hi as <-; by rewrite Hw|]).
  - change (text_refs st refs !! i = Some r) in Hi. rewrite <- (Ht false) in Hi.
    rewrite (IH _ true _ _ Hnd Hi). by rewrite !andb_false_r.
  - change (text_refs st refs !! i = Some r) in Hi. rewrite <- (Ht true) in Hi.
    rewrite (IH _ true _ _ Hnd Hi). by rewrite andb_false_r.
Qed.

Lemma keep_all_kept refs : ∀ st j,
  is_Some (st !! j) →
  j ∈ refs ∨ kept st j = Some true →
  kept (keep_all st refs) j = Some true.
Proof.
  induction refs as [|r refs IH]; intros st j Hsome Hj; simpl.
  { destruct Hj as [Hj|Hj]; [by apply elem_of_nil in Hj|done]. }
  assert (∀ l, st !! j = Some l → j = r ∨ Link.keep l = true →
               kept (write_keep r true st) j = Some true) as Hw.
  { intros l Hl Hjr. unfold kept, write_keep. rewrite list_lookup_alter.
    case_decide as E; [rewrite E, Hl; by destruct l|].
    rewrite Hl. destruct Hjr; [done|]. simpl. by f_equal. }
  destruct Hsome as [l Hl]. apply IH.
  { unfold write_keep. rewrite list_lookup_alter.
    case_decide as E; rewrite ?E, Hl; by eexists. }
  destruct Hj as [[->|Hj]%elem_of_cons|Hj]; [right|by left|right].
  - eapply Hw; eauto.
  - eapply Hw; [done|]. right. unfold kept in Hj. rewrite Hl in Hj. by simplify_eq/=.
Qed.

(** The text links that the code filters out of a group are the links
    behind [text_refs]. *)
Lemma text_links_refs st refs :
  Forall2 (λ l r, st !! r = Some l)
          (filter (λ l, Link.is_text l) (deref st refs)) (text_refs st refs).
Proof.
  induction refs as [|r refs IH]; [constructor|].
  rewrite deref_cons, text_refs_cons.
  destruct (st !! r) as [l|] eqn:Hl; cbn [from_option]; [|done].
  rewrite filter_cons. destruct (Link.is_text l) eqn:Ht.
  - rewrite decide_True by done. by constructor.
  - rewrite decide_False by (simpl; tauto). exact IH.
Qed.

Lemma set_size_pair (a b : str) : (1 <? set_size [a; b]) = bool_decide (a ≠ b).
Proof.
  unfold set_size. destruct (decide (a = b)) as [->|Hab].
  - rewrite bool_decide_eq_false_2 by naive_solver.
    replace (list_to_set [b; b] : gset str) with ({[b]} : gset str).
    + by rewrite size_singleton.
    + cbn [list_to_set]. by rewrite union_empty_r_L, union_idemp_L.
  - rewrite bool_decide_eq_true_2 by done.
    rewrite size_list_to_set; [done|].
    apply NoDup_cons. split; [by intros ->%list_elem_of_singleton|]. apply NoDup_singleton.
Qed.

(** The first branch is taken exactly when the group has two text links
    whose trimmed, lower-cased anchor texts differ. *)
Lemma ambiguous_spec st g :
  ambiguous st g = true
  ↔ ∃ r1 r2, text_refs st (Group.links g) = [r1; r2]
             ∧ norm_text st r1 ≠ norm_text st r2.
Proof.
  unfold ambiguous. pose proof (text_links_refs st (Group.links g)) as HF.
  destruct HF as [|l1 r1 ? ? H1 [|l2 r2 ? ? H2 [|l3 r3 ? ? H3 HF]]].
  - split; [done|]. by intros (? & ? & ? & _).
  - split; [done|]. by intros (? & ? & ? & _).
  - cbn [length Nat.eqb andb]. unfold hasDifferentAnchors.
    replace (length [l1; l2] <? 2) with false by done.
    rewrite !fmap_cons, fmap_nil, set_size_pair, bool_decide_eq_true.
    unfold norm_text. split.
    + intros Hne. exists r1, r2. split; [done|]. rewrite H1, H2. simpl. congruence.
    + intros (? & ? & [= <- <-] & Hne). rewrite H1, H2 in Hne. simpl in Hne. congruence.
  - split; [done|]. intros (? & ? & Heq & _). by apply (f_equal length) in Heq.
Qed.

Lemma strip_group_policy st g :
  NoDup (Group.links g) →
  (ambiguous st g = true →
   ∀ r, r ∈ text_refs st (Group.links g) → kept (strip_group st g) r = Some true)
  ∧ (ambiguous st g = false →
     ∀ i r, text_refs st (Group.links g) !! i = Some r →
            kept (strip_group st g) r = Some (bool_decide (i = 0))).
Proof.
  intros Hnd. rewrite strip_group_unfold. split; intros ->.
  - intros r (Hr & l & Hl & _)%text_refs_elem. apply keep_all_kept; [by eexists|by left].
  - intros i r Hi. rewrite (keep_first_policy _ _ _ _ _ Hnd Hi). by rewrite andb_true_r.
Qed.

Lemma refs_of_app gs1 gs2 : refs_of (gs1 ++ gs2) = refs_of gs1 ++ refs_of gs2.
Proof. unfold refs_of. by rewrite fmap_app, concat_app. Qed.

Lemma StronglySorted_lookup {A} (R : relation A) (l : list A) i j x y :
  StronglySorted R l → l !! i = Some x → l !! j = Some y → i < j → R x y.
Proof.
  intros Hl. revert i j. induction Hl as [|z l Hl IH Hz]; intros i j Hi Hj Hij; [done|].
  destruct j as [|j]; [lia|]. destruct i as [|i]; simplify_eq/=.
  - rewrite Forall_forall in Hz. apply Hz. by eapply list_elem_of_lookup_2.
  - eapply IH; [done..|lia].
Qed.

Lemma StronglySorted_filter {A} (R : relation A) (P : A → Prop)
    `{∀ x, Decision (P x)} (l : list A) :
  StronglySorted R l → StronglySorted R (filter P l).
Proof.
  induction 1 as [|z l Hl IH Hz]; [constructor|].
  rewrite filter_cons. case_decide; [|done]. constructor; [done|].
  rewrite Forall_forall in *. intros x [_ Hx]%list_elem_of_filter. auto.
Qed.

(** C2.  The text policy of auto-strip, for each group of a session
    that satisfies the inventory invariant.  If the group has exactly two
    text links and their trimmed, lower-cased anchor texts differ, both
    are kept.  Otherwise the first text link of the group is kept and
    every later text link of the group is not.  The text links of the
    group are taken in document order. *)
Theorem applyAutoStrip_text_policy (s : State.t) (key : str) (g : Group.t) :
  session_wf s →
  (key, g) ∈ State.groups s →
  let before := State.links s in
  let after := State.links (applyAutoStrip s) in
  let textLinks := text_refs before (Group.links g) in
  (∀ r1 r2, textLinks = [r1; r2] →
            norm_text before r1 ≠ norm_text before r2 →
            kept after r1 = Some true ∧ kept after r2 = Some true)
  ∧ ((¬ ∃ r1 r2, textLinks = [r1; r2] ∧ norm_text before r1 ≠ norm_text before r2) →
     ∀ i r, textLinks !! i = Some r → kept after r = Some (bool_decide (i = 0)))
  ∧ (∀ i j ri rj li lj,
       textLinks !! i = Some ri → textLinks !! j = Some rj → i < j →
       before !! ri = Some li → before !! rj = Some lj →
       Link.rawIndex li < Link.rawIndex lj).
Proof.
  intros [(_ & Hnd & _ & _) [Hsorted Hraw]] Hg before after textLinks.
  rewrite group_refs_refs_of in Hnd.
  assert (g ∈ (State.groups s).*2) as Hg2 by (by apply (list_elem_of_fmap_2 snd) in Hg).
  apply list_elem_of_split in Hg2 as (gs1 & gs2 & Hgs).
  rewrite Hgs, refs_of_app in Hnd. change (g :: gs2) with ([g] ++ gs2) in Hnd.
  rewrite refs_of_app in Hnd. unfold refs_of at 2 in Hnd. simpl in Hnd.
  rewrite app_nil_r in Hnd.
  apply NoDup_app in Hnd as (_ & _ & (Hndg & Hdisj & _)%NoDup_app).
  subst after. unfold applyAutoStrip, State.set_links. cbn [State.links].
  rewrite Hgs, foldl_app. cbn [foldl].
  set (st1 := foldl strip_group (State.links s) gs1).
  assert (same_static st1 before) as Hs by apply strip_groups_static.
  assert (∀ r, r ∈ textLinks →
               kept (foldl strip_group (strip_group st1 g) gs2) r
               = kept (strip_group st1 g) r) as Hlater.
  { intros r (Hr & _)%text_refs_elem. unfold kept.
    rewrite strip_groups_untouched; [done|]. by apply Hdisj. }
  destruct (strip_group_policy st1 g Hndg) as [Hamb Hfirst].
  rewrite (text_refs_static _ _ _ Hs) in Hamb, Hfirst. fold textLinks in Hamb, Hfirst.
  assert (ambiguous st1 g = true
          ↔ ∃ r1 r2, textLinks = [r1; r2] ∧ norm_text before r1 ≠ norm_text before r2)
    as Hspec.
  { rewrite ambiguous_spec, (text_refs_static _ _ _ Hs).
    by setoid_rewrite (norm_text_static _ _ _ Hs). }
  split_and!.
  - intros r1 r2 HT Hne.
    assert (ambiguous st1 g = true) as Ha by (apply Hspec; eauto).
    rewrite !Hlater by (rewrite HT; repeat constructor).
    split; apply Hamb; try done; rewrite HT; repeat constructor.
  - intros Hno i r Hi.
    assert (ambiguous st1 g = false) as Ha.
    { apply not_true_is_false. intros Ha. by apply Hno, Hspec. }
    rewrite Hlater by (by eapply list_elem_of_lookup_2). by apply Hfirst.
  - intros i j ri rj li lj Hi Hj Hij Hli Hlj. unfold before in Hli, Hlj.
    rewrite Forall_forall in Hsorted. specialize (Hsorted _ Hg). cbn [snd] in Hsorted.
    assert (ri < rj) as Hr.
    { eapply (StronglySorted_lookup lt textLinks i j); [|done..].
      by apply StronglySorted_filter. }
    eapply (StronglySorted_lookup lt _ ri rj); [exact Hraw| | |done];
      rewrite list_lookup_fmap; [by rewrite Hli|by rewrite Hlj].
Qed.

(** *** Toggling one link *)

(** C10.  [toggleLink id] is a no-op when no link has the id [id] or the
    link with that id is an image or CTA link: the whole session, and so
    every [keep] flag, is unchanged.  In general a toggle changes a link
    only by flipping [keep], and only on a text link with the id [id]. *)
Theorem toggleLink_protected_noop (id : nat) (s : State.t) :
  ((∀ l, l ∈ State.links s → Link.id l = id →
         Link.isImageLink l || Link.isCtaLink l = true) →
   toggleLink id s = s)
  ∧ (∀ i l l', State.links s !! i = Some l →
               State.links (toggleLink id s) !! i = Some l' →
               l' ≠ l →
               Link.isImageLink l = false ∧ Link.isCtaLink l = false
               ∧ Link.id l = id ∧ l' = Link.set_keep (negb (Link.keep l)) l).
Proof.
  unfold toggleLink.
  destruct (list_find _ (State.links s)) as [[k link]|] eqn:Hfind.
  - apply list_find_Some in Hfind as (Hk & Hid & _). split.
    + intros Hprot. rewrite Hprot; [done|by eapply list_elem_of_lookup_2|done].
    + intros i l l' Hl. destruct (Link.isImageLink link || Link.isCtaLink link) eqn:Hp.
      { intros Hl' Hne. congruence. }
      unfold State.set_links. cbn [State.links]. rewrite list_lookup_alter.
      case_decide as Hik; [subst k|congruence].
      rewrite Hk. simpl. intros [= <-] _. simplify_eq.
      apply orb_false_elim in Hp as [-> ->]. done.
  - split; [done|]. intros i l l' Hl Hl' Hne. congruence.
Qed.

End auto_strip.

(** ** Objects used as maps *)

Section js_object.

Import JsObject.

Lemma get_app_fresh {V} key (v : V) o :
  get key o = None → get key (o ++ [(key, v)]) = Some v.
Proof.
  induction o as [|[k' v'] o IH]; simpl; [by rewrite bool_decide_eq_true_2|].
  case_bool_decide; [done|auto].
Qed.

Lemma get_insert_index {V} n key (v : V) o :
  get key o = None → get key (insert_index n key v o) = Some v.
Proof.
  induction o as [|[k' v'] o IH]; simpl; [by rewrite bool_decide_eq_true_2|].
  case_bool_decide as Hk; [done|]. intros Hget.
  destruct (array_index k') as [n'|]; [destruct (n' <? n)%N|]; simpl;
    rewrite ?bool_decide_eq_true_2 by done; try done.
  rewrite bool_decide_eq_false_2 by done. auto.
Qed.

Lemma get_define {V} key (v : V) o :
  get key o = None → get key (define key v o) = Some v.
Proof.
  unfold define. destruct (array_index key); [apply get_insert_index|apply get_app_fresh].
Qed.

Lemma Forall_insert_index {V} (P : str * V → Prop) n key v o :
  P (key, v) → Forall P o → Forall P (insert_index n key v o).
Proof.
  intros Hv. induction 1 as [|[k' v'] o Hk Ho IH]; simpl; [by repeat constructor|].
  destruct (array_index k') as [n'|]; [destruct (n' <? n)%N|];
    repeat (apply Forall_cons; split); done.
Qed.

Lemma Forall_define {V} (P : str * V → Prop) key v o :
  P (key, v) → Forall P o → Forall P (define key v o).
Proof.
  intros. unfold define. destruct (array_index key);
    [by apply Forall_insert_index|]. apply Forall_app. by repeat constructor.
Qed.

Lemma Forall_update {V} (P Q : str * V → Prop) key f o :
  (∀ k v, P (k, v) → Q (k, f v)) → (∀ kv, P kv → Q kv) →
  Forall P o → Forall Q (update key f o).
Proof.
  intros Hf HPQ. induction 1 as [|[k' v'] o Hk Ho IH]; simpl; [constructor|].
  case_bool_decide; constructor; auto. eapply Forall_impl; [exact Ho|auto].
Qed.

Lemma all_refs_cons k g o : all_refs ((k, g) :: o) = Group.links g ++ all_refs o.
Proof. done. Qed.

Lemma all_refs_insert_index n key g o :
  Group.links g = [] → all_refs (insert_index n key g o) = all_refs o.
Proof.
  intros Hg. induction o as [|[k' v'] o IH]; simpl.
  { by rewrite all_refs_cons, Hg. }
  destruct (array_index k') as [n'|]; [destruct (n' <? n)%N|];
    rewrite !all_refs_cons, ?IH, ?Hg; done.
Qed.

Lemma all_refs_define key g o :
  Group.links g = [] → all_refs (define key g o) = all_refs o.
Proof.
  intros Hg. unfold define. destruct (array_index key); [by apply all_refs_insert_index|].
  unfold all_refs. rewrite fmap_app, concat_app. simpl. by rewrite Hg, !app_nil_r.
Qed.

Lemma all_refs_add_to_group link key g o :
  get key o = Some g →
  all_refs (update key (add_to_group link) o) ≡ₚ Link.id link :: all_refs o.
Proof.
  induction o as [|[k' v'] o IH]; simpl; [done|].
  case_bool_decide as Hk.
  - intros _. rewrite !all_refs_cons. cbn [add_to_group Group.links].
    rewrite <- app_assoc. cbn [app]. by rewrite <- Permutation_middle.
  - intros Hget. rewrite !all_refs_cons, (IH Hget). by rewrite <- Permutation_middle.
Qed.

Lemma update_keys {V} key (f : V → V) o : (update key f o).*1 = o.*1.
Proof.
  induction o as [|[k v] o IH]; [done|]. simpl.
  case_bool_decide; rewrite !fmap_cons; simpl; by rewrite ?IH.
Qed.

Lemma insert_index_keys {V} n key (v : V) o : (insert_index n key v o).*1 ≡ₚ key :: o.*1.
Proof.
  induction o as [|[k' v'] o IH]; [done|]. simpl.
  destruct (array_index k') as [n'|]; [destruct (n' <? n)%N|]; simpl; try done.
  rewrite IH. apply Permutation_swap.
Qed.

Lemma define_keys {V} key (v : V) o : (define key v o).*1 ≡ₚ key :: o.*1.
Proof.
  unfold define. destruct (array_index key); [apply insert_index_keys|].
  rewrite fmap_app. simpl. by rewrite <- Permutation_cons_append.
Qed.

Lemma get_None {V} key (o : list (str * V)) : get key o = None ↔ key ∉ o.*1.
Proof.
  induction o as [|[k v] o IH]; simpl; [split; [intros _; apply not_elem_of_nil|done]|].
  rewrite not_elem_of_cons. case_bool_decide as Hk.
  - split; [done|]. intros [Hne _]. by destruct Hne.
  - rewrite IH. split; [intros ?; split; [congruence|done]|by intros [_ ?]].
Qed.

Lemma get_Some_elem {V} key (v : V) o : get key o = Some v → (key, v) ∈ o.
Proof.
  induction o as [|[k v'] o IH]; simpl; [done|].
  case_bool_decide; [intros [= <-]; subst; left|right; auto].
Qed.

Lemma get_update {V} key key' (f : V → V) o :
  get key' (update key f o) = if bool_decide (key' = key) then f <$> get key o else get key' o.
Proof.
  induction o as [|[k v] o IH]; simpl; [by case_bool_decide|].
  destruct (decide (k = key)) as [->|Hk].
  - rewrite (bool_decide_eq_true_2 (key = key)) by done. simpl.
    destruct (decide (key' = key)) as [->|Hk'].
    + by rewrite !bool_decide_eq_true_2.
    + rewrite (bool_decide_eq_false_2 (key' = key)) by done.
      by rewrite (bool_decide_eq_false_2 (key = key')) by congruence.
  - rewrite (bool_decide_eq_false_2 (k = key)) by done. simpl. rewrite IH.
    destruct (decide (key' = key)) as [->|Hk'].
    + rewrite !(bool_decide_eq_true_2 (key = key)) by done.
      by rewrite ?(bool_decide_eq_false_2 (k = key)) by done.
    + by rewrite (bool_decide_eq_false_2 (key' = key)) by done.
Qed.

Lemma get_insert_index_ne {V} n key key' (v : V) o :
  key' ≠ key → get key' (insert_index n key v o) = get key' o.
Proof.
  intros Hne. induction o as [|[k' v'] o IH]; simpl.
  { by rewrite bool_decide_eq_false_2 by congruence. }
  destruct (array_index k') as [n'|]; [destruct (n' <? n)%N|]; simpl;
    rewrite ?IH, ?(bool_decide_eq_false_2 (key = key')) by congruence; done.
Qed.

Lemma get_define_ne {V} key key' (v : V) o :
  key' ≠ key → get key' (define key v o) = get key' o.
Proof.
  intros Hne. unfold define. destruct (array_index key); [by apply get_insert_index_ne|].
  induction o as [|[k' v'] o IH]; simpl; [by rewrite bool_decide_eq_false_2 by congruence|].
  by rewrite IH.
Qed.

Lemma Forall_update_key {V} (P Q : str * V → Prop) key f o :
  NoDup o.*1 →
  (∀ v, P (key, v) → Q (key, f v)) → (∀ kv, kv.1 ≠ key → P kv → Q kv) →
  Forall P o → Forall Q (update key f o).
Proof.
  intros Hnd Hf HPQ Hall. induction Hall as [|[k' v'] o Hk Ho IH]; simpl; [constructor|].
  rewrite fmap_cons in Hnd. apply NoDup_cons in Hnd as [Hk' Hnd].
  case_bool_decide as Heq; constructor; auto.
  - subst. auto.
  - subst. apply Forall_forall. intros kv Hin. apply HPQ.
    + intros <-. apply Hk'. by apply (list_elem_of_fmap_2 fst) in Hin.
    + by eapply Forall_forall in Ho.
Qed.

End js_object.

(** ** Analysis *)

Section analysis.

Variable new_URL : url_parser.

Implicit Types (a : node) (anchors : list (node * list node)) (acc : inventory).

Lemma isExternalLink_returns href domain :
  ∃ b, Classifier.isExternalLink new_URL href domain = Normal b.
Proof.
  unfold Classifier.isExternalLink. repeat case_match; try by eexists.
  destruct (new_URL href); by eexists.
Qed.

Lemma upsert_group_refs link groups groups' :
  upsert_group link groups = Normal groups' →
  all_refs groups' ≡ₚ Link.id link :: all_refs groups.
Proof.
  unfold upsert_group.
  destruct (JsObject.get _ groups) as [g|] eqn:Hget; simpl.
  - intros [= <-]. by eapply all_refs_add_to_group.
  - destruct (JsObject.inherited _); [done|]. simpl. intros [= <-].
    erewrite all_refs_add_to_group by (by apply get_define).
    by rewrite all_refs_define.
Qed.

Lemma upsert_group_sorted link groups groups' :
  upsert_group link groups = Normal groups' →
  groups_sorted (Link.id link) groups →
  groups_sorted (S (Link.id link)) groups'.
Proof.
  unfold upsert_group, groups_sorted. intros Hup Hsorted.
  assert (∀ o, Forall (λ kg, StronglySorted lt (Group.links kg.2)
                             ∧ Forall (λ r, r < Link.id link) (Group.links kg.2)) o →
               Forall (λ kg, StronglySorted lt (Group.links kg.2)
                             ∧ Forall (λ r, r < S (Link.id link)) (Group.links kg.2))
                      (JsObject.update (Link.normalizedHref link) (add_to_group link) o))
    as Hupdate.
  { intros o. apply Forall_update.
    - intros k g [Hs Hlt]. cbn [snd add_to_group Group.links]. split.
      + apply StronglySorted_app. split_and!; [|done|repeat constructor].
        intros r1 r2 Hr1 ->%list_elem_of_singleton.
        rewrite Forall_forall in Hlt. by apply Hlt.
      + apply Forall_app. split; [|repeat constructor; lia].
        eapply Forall_impl; [done|]. intros; simpl in *; lia.
    - intros kg [Hs Hlt]. split; [done|].
      eapply Forall_impl; [done|]. intros; simpl in *; lia. }
  destruct (JsObject.get _ groups) as [g|] eqn:Hget; simpl in Hup.
  - injection Hup as <-. by apply Hupdate.
  - destruct (JsObject.inherited _); [done|]. simpl in Hup. injection Hup as <-.
    apply Hupdate, Forall_define; [|done]. cbn [snd Group.links].
    split; constructor.
Qed.

Lemma upsert_group_returns link groups :
  JsObject.inherited (Link.normalizedHref link) = false →
  ∃ groups', upsert_group link groups = Normal groups'.
Proof.
  intros Hin. unfold upsert_group. rewrite Hin.
  destruct (JsObject.get _ groups); by eexists.
Qed.

(** One anchor: either it is left out, with its [broken] warning, or it
    becomes the next link of the inventory and a member of one group. *)
Lemma analyze_anchor_spec domain links groups warnings rawIndex a ancestors acc' :
  analyze_anchor new_URL domain (links, groups, warnings) rawIndex a ancestors
  = Normal acc' →
  if valid_href new_URL a
  then ∃ link groups',
         acc' = (links ++ [link], groups', warnings)
         ∧ Link.id link = length links
         ∧ Link.rawIndex link = rawIndex
         ∧ Link.keep link = true
         ∧ Link.isImageLink link && Link.isCtaLink link = false
         ∧ all_refs groups' ≡ₚ length links :: all_refs groups
         ∧ (groups_sorted (length links) groups →
            groups_sorted (S (length links)) groups')
  else acc' = (links, groups, warnings ++ broken_warning a).
Proof.
  unfold analyze_anchor, valid_href, broken_warning.
  destruct (normalizeUrl new_URL _) as [normalized|]; [|done]. cbn [mbind completion_bind].
  destruct (falsy normalized); cbn [negb].
  { case_match; intros [= <-]; [done|by rewrite app_nil_r]. }
  destruct (if Classifier.isImageLink a then mret false else _) as [cta|] eqn:Hcta;
    [|done].
  cbn [mbind completion_bind].
  destruct (isExternalLink_returns (default [] (getAttribute (lit "href") a)) domain)
    as [external ->].
  cbn [mbind completion_bind].
  destruct (upsert_group _ groups) as [groups'|] eqn:Hup; [|done].
  cbn [mbind completion_bind mret completion_ret]. intros [= <-].
  pose proof (upsert_group_sorted _ _ _ Hup) as Hsorted.
  apply upsert_group_refs in Hup. cbn [Link.id] in Hup, Hsorted.
  eexists _, groups'. split_and!; try done.
  cbn [Link.isImageLink Link.isCtaLink].
  destruct (Classifier.isImageLink a); [by injection Hcta as <-|done].
Qed.

(** What the loop over the anchors adds to an inventory. *)
Lemma analyze_anchors_spec domain anchors : ∀ rawIndex links groups warnings acc',
  analyze_anchors new_URL domain anchors rawIndex (links, groups, warnings)
  = Normal acc' →
  ∃ new groups',
    acc' = (links ++ new, groups',
            warnings ++ flat_map (λ e, if valid_href new_URL e.1 then []
                                       else broken_warning e.1) anchors)
    ∧ Link.id <$> new = seq (length links) (length new)
    ∧ Forall (λ l, ∃ k e, anchors !! k = Some e
                          ∧ Link.rawIndex l = rawIndex + k
                          ∧ valid_href new_URL e.1 = true
                          ∧ Link.keep l = true
                          ∧ Link.isImageLink l && Link.isCtaLink l = false) new
    ∧ length new = length (filter (λ e, valid_href new_URL e.1) anchors)
    ∧ all_refs groups' ≡ₚ all_refs groups ++ seq (length links) (length new)
    ∧ (groups_sorted (length links) groups →
       groups_sorted (length links + length new) groups')
    ∧ StronglySorted lt (Link.rawIndex <$> new).
Proof.
  induction anchors as [|[a ancestors] anchors IH];
    intros rawIndex links groups warnings acc'.
  { intros [= <-]. exists [], groups. rewrite !app_nil_r.
    split_and!; try done; [by rewrite Nat.add_0_r|constructor]. }
  cbn [analyze_anchors].
  destruct (analyze_anchor _ _ _ _ a ancestors) as [acc1|] eqn:Hstep; [|done].
  cbn [mbind completion_bind]. intros Hrest.
  apply analyze_anchor_spec in Hstep. cbn [flat_map fst]. rewrite filter_cons. cbn [fst].
  destruct (valid_href new_URL a) eqn:Hvalid.
  - destruct Hstep as (link & groups1 & -> & Hid & Hraw & Hkeep & Hkind & Hrefs & Hs1).
    apply IH in Hrest as (new & groups' & -> & Hids & Hall & Hlen & Hrefs' & Hs & Hri).
    exists (link :: new), groups'. rewrite length_app in *. cbn [length] in *.
    rewrite decide_True by done. cbn [length app].
    split_and!.
    + by rewrite <- app_assoc.
    + rewrite fmap_cons, Hid. cbn [seq]. f_equal. by rewrite Hids, Nat.add_1_r.
    + constructor.
      * exists 0, (a, ancestors). by rewrite Nat.add_0_r.
      * eapply Forall_impl; [done|]. intros l (k & e & ? & ? & ?).
        exists (S k), e. split; [done|]. split; [lia|done].
    + by rewrite Hlen.
    + rewrite Hrefs', Hrefs. cbn [seq app]. rewrite Nat.add_1_r.
      by rewrite <- Permutation_middle.
    + intros Hsorted. replace (length links + S (length new))
        with (length links + 1 + length new) by lia.
      apply Hs. rewrite Nat.add_1_r. by apply Hs1.
    + rewrite fmap_cons. constructor; [done|]. apply Forall_fmap.
      eapply Forall_impl; [exact Hall|]. intros l (k & e & _ & Hk & _). simpl. lia.
  - subst acc1.
    apply IH in Hrest as (new & groups' & -> & Hids & Hall & Hlen & Hrefs' & Hs & Hri).
    exists new, groups'. rewrite decide_False by (simpl; tauto).
    split_and!; try done.
    + by rewrite <- app_assoc.
    + eapply Forall_impl; [done|]. intros l (k & e & ? & ? & ?).
      exists (S k), e. split; [done|]. split; [lia|done].
Qed.

Lemma analyze_anchor_returns domain acc rawIndex a ancestors :
  analysable new_URL (a, ancestors) →
  ∃ acc', analyze_anchor new_URL domain acc rawIndex a ancestors = Normal acc'.
Proof.
  intros Hkey. destruct acc as [[links groups] warnings].
  unfold analysable, analyze_anchor, anchor_key, cta_of in *. cbn [fst snd] in Hkey.
  destruct (normalizeUrl_returns new_URL (default [] (getAttribute (lit "href") a)))
    as [normalized Hn].
  rewrite Hn in *. cbn [mbind completion_bind].
  destruct (falsy normalized) eqn:Hf; [destruct (negb _ && negb _); by eexists|].
  destruct normalized as [key|]; [|done]. cbn [falsy default] in *.
  rewrite Hf in Hkey. destruct (Hkey key eq_refl) as [Hinh [cta ->]].
  cbn [mbind completion_bind].
  destruct (isExternalLink_returns (default [] (getAttribute (lit "href") a)) domain)
    as [external ->].
  cbn [mbind completion_bind].
  edestruct (upsert_group_returns) as [groups' ->]; [|by eexists].
  done.
Qed.

Lemma analyze_anchors_returns domain anchors : ∀ rawIndex acc,
  Forall (analysable new_URL) anchors →
  ∃ acc', analyze_anchors new_URL domain anchors rawIndex acc = Normal acc'.
Proof.
  induction anchors as [|[a ancestors] anchors IH]; intros rawIndex acc Hall.
  { by eexists. }
  apply Forall_cons in Hall as [Ha Hall]. cbn [analyze_anchors].
  destruct (analyze_anchor_returns domain acc rawIndex a ancestors Ha) as [acc1 ->].
  cbn [mbind completion_bind]. by apply IH.
Qed.

(** The analysis returns unless an anchor has a key that every object
    inherits, such as [constructor], or [isCtaLink] throws on an anchor,
    as it does on an anchor of an SVG image. *)
Lemma analyzeHtml_returns site_domain container :
  Forall (analysable new_URL) (querySelectorAll a_href container) →
  ∃ r, analyzeHtml new_URL site_domain container = Normal r.
Proof.
  intros Hall. unfold analyzeHtml.
  destruct (analyze_anchors_returns (trim site_domain) _ 0 ([], [], []) Hall)
    as [[[links groups] warnings] ->].
  by eexists.
Qed.

(** The result of the analysis, field by field. *)
Lemma analyzeHtml_spec site_domain container r :
  analyzeHtml new_URL site_domain container = Normal r →
  let anchors := querySelectorAll a_href container in
  Link.id <$> Analysis.links r = seq 0 (length (Analysis.links r))
  ∧ Forall (λ l, ∃ k e, anchors !! k = Some e
                        ∧ Link.rawIndex l = k
                        ∧ valid_href new_URL e.1 = true
                        ∧ Link.keep l = true
                        ∧ Link.isImageLink l && Link.isCtaLink l = false)
           (Analysis.links r)
  ∧ length (Analysis.links r) = length (filter (λ e, valid_href new_URL e.1) anchors)
  ∧ all_refs (Analysis.groups r) ≡ₚ seq 0 (length (Analysis.links r))
  ∧ Forall (λ kg, StronglySorted lt (Group.links kg.2)) (Analysis.groups r)
  ∧ StronglySorted lt (Link.rawIndex <$> Analysis.links r)
  ∧ Analysis.warnings r
    = flat_map (λ e, if valid_href new_URL e.1 then [] else broken_warning e.1) anchors
      ++ flat_map group_warnings (Analysis.groups r)
      ++ flat_map (λ e, density_warning e.1) (querySelectorAll p container)
  ∧ Analysis.stats r
    = Stats.mk (length (Analysis.links r)) (length (Analysis.groups r))
        (count_links Link.isImageLink (Analysis.links r))
        (count_links Link.isCtaLink (Analysis.links r))
        (length (Analysis.links r) - count_links Link.isImageLink (Analysis.links r)
         - count_links Link.isCtaLink (Analysis.links r))
        (count_links Link.isExternal (Analysis.links r)).
Proof.
  unfold analyzeHtml.
  destruct (analyze_anchors _ _ _ _ _) as [[[links groups] warnings]|] eqn:Hloop; [|done].
  cbn [mbind completion_bind mret completion_ret]. intros [= <-].
  apply analyze_anchors_spec in Hloop
    as (new & groups' & [= -> -> ->] & Hids & Hall & Hlen & Hrefs & Hsorted & Hraw).
  cbn [Analysis.links Analysis.groups Analysis.warnings Analysis.stats app length] in *.
  split_and!; try done; [|by rewrite <- app_assoc].
  eapply Forall_impl; [apply Hsorted; constructor|]. by intros kg [? _].
Qed.

(** *** Links and groups *)

Lemma filter_ext_Forall {A} (P Q : A → Prop) `{∀ x, Decision (P x)} `{∀ x, Decision (Q x)}
    (l : list A) :
  Forall (λ x, P x ↔ Q x) l → filter P l = filter Q l.
Proof.
  induction 1 as [|x l Hx _ IH]; [done|]. rewrite !filter_cons, IH.
  destruct (decide (P x)), (decide (Q x)); tauto || done.
Qed.

Lemma count_members_add (f : Link.t → bool) links link g :
  Forall (λ r, r < length links) (Group.links g) →
  Link.id link = length links →
  count_members f (links ++ [link]) (add_to_group link g)
  = count_members f links g + (if f link then 1 else 0).
Proof.
  intros Hin Hid. unfold count_members. cbn [add_to_group Group.links].
  rewrite filter_app, length_app. f_equal.
  - f_equal. apply filter_ext_Forall. eapply Forall_impl; [exact Hin|].
    intros r Hr. cbn beta. by rewrite lookup_app_l.
  - rewrite filter_cons, filter_nil, Hid.
    rewrite lookup_app_r, Nat.sub_diag by done. cbn [lookup list_lookup from_option].
    destruct (f link); [by rewrite decide_True|by rewrite decide_False by (simpl; tauto)].
Qed.

Lemma count_members_mono (f : Link.t → bool) links new g :
  Forall (λ r, r < length links) (Group.links g) →
  count_members f (links ++ new) g = count_members f links g.
Proof.
  intros Hin. unfold count_members. f_equal. apply filter_ext_Forall.
  eapply Forall_impl; [exact Hin|]. intros r Hr. cbn beta. by rewrite lookup_app_l.
Qed.

Lemma group_ok_in_range links kg :
  group_ok links kg → Forall (λ r, r < length links) (Group.links kg.2).
Proof.
  intros (_ & _ & _ & Hall & _). eapply Forall_impl; [exact Hall|].
  intros r (l & Hl & _). by eapply lookup_lt_Some.
Qed.

Lemma group_ok_mono links new kg : group_ok links kg → group_ok (links ++ new) kg.
Proof.
  intros Hok. pose proof (group_ok_in_range _ _ Hok) as Hin.
  destruct Hok as (Hn & Hinh & (first & rest & l & Hm & Hl & Hh) & Hall & Hi & Hc & Ht & Hhd).
  unfold group_ok. rewrite !count_members_mono by done. split_and!; try done.
  - exists first, rest, l. split_and!; try done. by apply lookup_app_l_Some.
  - eapply Forall_impl; [exact Hall|]. intros r (l' & Hl' & ?). exists l'.
    split; [by apply lookup_app_l_Some|done].
Qed.

Lemma add_to_group_ok links link key g :
  Link.id link = length links →
  Link.normalizedHref link = key →
  Link.isImageLink link && Link.isCtaLink link = false →
  group_ok links (key, g) →
  group_ok (links ++ [link]) (key, add_to_group link g).
Proof.
  intros Hid Hkey Hkind Hok. pose proof (group_ok_in_range _ _ Hok) as Hin.
  destruct Hok as (Hn & Hinh & (first & rest & l & Hm & Hl & Hh) & Hall & Hi & Hc & Ht & Hhd).
  cbn [fst snd] in *. unfold group_ok. cbn [fst snd].
  rewrite !count_members_add by done. split_and!; try done.
  - exists first, (rest ++ [Link.id link]), l. cbn [add_to_group Group.links Group.originalHref].
    rewrite Hm. split_and!; try done. by apply lookup_app_l_Some.
  - cbn [add_to_group Group.links]. apply Forall_app. split.
    + eapply Forall_impl; [exact Hall|]. intros r (l' & Hl' & ?). exists l'.
      split; [by apply lookup_app_l_Some|done].
    + constructor; [|constructor]. exists link. split; [|done].
      by rewrite Hid, lookup_app_r, Nat.sub_diag.
  - cbn [add_to_group Group.imageCount]. rewrite <- Hi.
    destruct (Link.isImageLink link); lia.
  - cbn [add_to_group Group.ctaCount]. rewrite <- Hc.
    destruct (Link.isImageLink link), (Link.isCtaLink link); done || lia.
  - cbn [add_to_group Group.textCount]. rewrite <- Ht. unfold Link.is_text.
    destruct (Link.isImageLink link), (Link.isCtaLink link); simpl; lia.
  - cbn [add_to_group Group.inHeadingCount]. rewrite <- Hhd.
    destruct (Link.isInHeading link); lia.
Qed.

Lemma new_group_ok links link key :
  Link.id link = length links →
  Link.normalizedHref link = key →
  Link.isImageLink link && Link.isCtaLink link = false →
  JsObject.inherited key = false →
  group_ok (links ++ [link]) (key, add_to_group link (Group.mk key (Link.href link) [] 0 0 0 0)).
Proof.
  intros Hid Hkey Hkind Hinh. unfold group_ok. cbn [fst snd].
  rewrite !count_members_add by (done || constructor).
  unfold count_members.
  cbn [add_to_group Group.links Group.normalizedHref Group.originalHref Group.imageCount
       Group.ctaCount Group.textCount Group.inHeadingCount app filter list_filter length].
  assert ((links ++ [link]) !! Link.id link = Some link) as Hl.
  { by rewrite Hid, lookup_app_r, Nat.sub_diag. }
  split_and!; try done.
  - exists (Link.id link), [], link. by split_and!.
  - constructor; [|constructor]. exists link. by split.
  - destruct (Link.isImageLink link), (Link.isCtaLink link); simpl in *; done || lia.
  - unfold Link.is_text.
    destruct (Link.isImageLink link), (Link.isCtaLink link); simpl in *; done || lia.
Qed.

Lemma inventory_ok_nil : inventory_ok [] [].
Proof. unfold inventory_ok. split_and!; try done; constructor. Qed.

Lemma upsert_group_ok links link groups groups' :
  Link.id link = length links →
  Link.isImageLink link && Link.isCtaLink link = false →
  inventory_ok links groups →
  upsert_group link groups = Normal groups' →
  inventory_ok (links ++ [link]) groups'.
Proof.
  intros Hid Hkind (Hids & Hkinds & Hnd & Hgs & Hmem). unfold upsert_group.
  set (key := Link.normalizedHref link).
  assert (Link.id <$> links ++ [link] = seq 0 (length (links ++ [link]))) as Hids'.
  { rewrite fmap_app, length_app, seq_app, Hids. simpl. by rewrite Hid. }
  assert (Forall (λ l, Link.isImageLink l && Link.isCtaLink l = false) (links ++ [link]))
    as Hkinds'.
  { apply Forall_app. split; [done|]. by repeat constructor. }
  destruct (JsObject.get key groups) as [g0|] eqn:Hget.
  - cbn [mbind completion_bind mret completion_ret]. intros [= <-].
    unfold inventory_ok. rewrite update_keys. split_and!; try done.
    + eapply Forall_update_key; [done| | |exact Hgs].
      * intros v. by apply add_to_group_ok.
      * intros kv _. apply group_ok_mono.
    + apply Forall_app. split.
      * eapply Forall_impl; [exact Hmem|]. intros l (g & Hg & Hin). cbn beta.
        rewrite get_update. case_bool_decide as Hk.
        -- rewrite Hk in Hg. rewrite Hg in Hget. injection Hget as ->.
           rewrite Hg. eexists. split; [done|]. cbn [add_to_group Group.links].
           apply elem_of_app. by left.
        -- by exists g.
      * constructor; [|constructor]. rewrite get_update, bool_decide_eq_true_2 by done.
        fold key. rewrite Hget. eexists. split; [done|]. cbn [add_to_group Group.links].
        apply elem_of_app. right. by left.
  - destruct (JsObject.inherited key) eqn:Hinh; [done|].
    cbn [mbind completion_bind mret completion_ret]. intros [= <-].
    pose proof Hget as Hfresh. apply get_None in Hfresh.
    assert (NoDup (JsObject.define key (Group.mk key (Link.href link) [] 0 0 0 0) groups).*1)
      as Hnd1.
    { rewrite define_keys. by apply NoDup_cons. }
    unfold inventory_ok. rewrite update_keys. split_and!; try done.
    + eapply (Forall_update_key
                (λ kg, (kg.1 ≠ key ∧ group_ok links kg)
                       ∨ kg = (key, Group.mk key (Link.href link) [] 0 0 0 0)));
        [done| | |].
      * intros v [[Hne _]|Heq]; [done|]. injection Heq as ->. by apply new_group_ok.
      * intros kv Hne [[_ Hok]| ->]; [by apply group_ok_mono|done].
      * apply Forall_define; [by right|]. apply Forall_forall. intros kg Hin. left.
        split; [|by eapply Forall_forall in Hgs].
        intros Hk. apply Hfresh. rewrite <- Hk. by apply (list_elem_of_fmap_2 fst) in Hin.
    + apply Forall_app. split.
      * eapply Forall_impl; [exact Hmem|]. intros l (g & Hg & Hin). cbn beta.
        rewrite get_update. case_bool_decide as Hk.
        -- rewrite Hk in Hg. fold key in Hg. by rewrite Hg in Hget.
        -- rewrite get_define_ne by done. by exists g.
      * constructor; [|constructor]. rewrite get_update, bool_decide_eq_true_2 by done.
        fold key. rewrite get_define by done. eexists. split; [done|].
        cbn [add_to_group Group.links]. apply elem_of_app. right. by left.
Qed.

Lemma analyze_anchor_ok domain links groups warnings rawIndex a ancestors acc' :
  inventory_ok links groups →
  analyze_anchor new_URL domain (links, groups, warnings) rawIndex a ancestors
  = Normal acc' →
  if valid_href new_URL a
  then ∃ link groups',
         acc' = (links ++ [link], groups', warnings)
         ∧ describes new_URL domain link (a, ancestors)
         ∧ inventory_ok (links ++ [link]) groups'
  else acc' = (links, groups, warnings ++ broken_warning a).
Proof.
  intros Hok. unfold analyze_anchor, valid_href, broken_warning.
  destruct (normalizeUrl new_URL _) as [normalized|] eqn:Hnorm; [|done].
  cbn [mbind completion_bind].
  destruct (falsy normalized) eqn:Hfalsy; cbn [negb].
  { case_match; intros [= <-]; [done|by rewrite app_nil_r]. }
  destruct normalized as [key|]; [|done]. cbn [default from_option].
  destruct (if Classifier.isImageLink a then mret false else _) as [cta|] eqn:Hcta;
    [|done].
  cbn [mbind completion_bind].
  destruct (Classifier.isExternalLink new_URL _ domain) as [external|] eqn:Hext; [|done].
  cbn [mbind completion_bind].
  destruct (upsert_group _ groups) as [groups'|] eqn:Hup; [|done].
  cbn [mbind completion_bind mret completion_ret]. intros [= <-].
  eexists _, groups'. split; [done|]. split.
  - unfold describes, cta_of. cbn [fst snd Link.normalizedHref Link.href Link.isImageLink
      Link.isCtaLink Link.isInHeading Link.isExternal Link.parentTag Link.context
      Link.anchorText Link.rel Link.keep]. by split_and!.
  - eapply upsert_group_ok; [| |exact Hok|exact Hup]; [done|].
    cbn [Link.isImageLink Link.isCtaLink].
    destruct (Classifier.isImageLink a); [by injection Hcta as <-|done].
Qed.

Lemma analyze_anchors_ok domain anchors : ∀ rawIndex links groups warnings acc',
  inventory_ok links groups →
  analyze_anchors new_URL domain anchors rawIndex (links, groups, warnings)
  = Normal acc' →
  ∃ new groups' warnings',
    acc' = (links ++ new, groups', warnings')
    ∧ Forall2 (describes new_URL domain) new
              (filter (λ e, valid_href new_URL e.1) anchors)
    ∧ inventory_ok (links ++ new) groups'.
Proof.
  induction anchors as [|[a ancestors] anchors IH];
    intros rawIndex links groups warnings acc' Hok.
  { intros [= <-]. exists [], groups, warnings. rewrite !app_nil_r.
    split_and!; [done|constructor|done]. }
  cbn [analyze_anchors].
  destruct (analyze_anchor _ _ _ _ a ancestors) as [acc1|] eqn:Hstep; [|done].
  cbn [mbind completion_bind]. intros Hrest.
  apply analyze_anchor_ok in Hstep; [|done]. rewrite filter_cons. cbn [fst].
  destruct (valid_href new_URL a) eqn:Hvalid.
  - destruct Hstep as (link & groups1 & -> & Hlink & Hok1).
    apply IH in Hrest as (new & groups' & warnings' & -> & Hall & Hok'); [|done].
    exists (link :: new), groups', warnings'. rewrite decide_True by done.
    rewrite <- app_assoc in *. split_and!; [done| |done]. by constructor.
  - subst acc1.
    apply IH in Hrest as (new & groups' & warnings' & -> & Hall & Hok'); [|done].
    exists new, groups', warnings'. by rewrite decide_False by (simpl; tauto).
Qed.

Lemma analyzeHtml_ok site_domain container r :
  analyzeHtml new_URL site_domain container = Normal r →
  Forall2 (describes new_URL (trim site_domain)) (Analysis.links r)
          (filter (λ e, valid_href new_URL e.1) (querySelectorAll a_href container))
  ∧ inventory_ok (Analysis.links r) (Analysis.groups r).
Proof.
  unfold analyzeHtml.
  destruct (analyze_anchors _ _ _ _ _) as [[[links groups] warnings]|] eqn:Hloop; [|done].
  cbn [mbind completion_bind mret completion_ret]. intros [= <-].
  apply analyze_anchors_ok in Hloop
    as (new & groups' & warnings' & [= -> -> ->] & Hall & Hok); [|apply inventory_ok_nil].
  done.
Qed.

(** The groups of an analysis partition its links by key. *)
Lemma analyzeHtml_groups site_domain container r :
  analyzeHtml new_URL site_domain container = Normal r →
  NoDup (Analysis.groups r).*1
  ∧ (∀ key g, (key, g) ∈ Analysis.groups r →
       Group.normalizedHref g = key
       ∧ Group.links g ≠ []
       ∧ ∀ ref, ref ∈ Group.links g →
           ∃ l, Analysis.links r !! ref = Some l ∧ Link.normalizedHref l = key)
  ∧ length (Analysis.groups r)
    = length (remove_dups (Link.normalizedHref <$> Analysis.links r)).
Proof.
  intros Hr. apply analyzeHtml_ok in Hr as [_ (Hids & _ & Hnd & Hgs & Hmem)].
  split; [done|]. split.
  - intros key g Hg. rewrite Forall_forall in Hgs.
    destruct (Hgs _ Hg) as (Hkey & _ & (first & rest & l & Hm & _) & Hall & _).
    cbn [fst snd] in *. split; [done|]. split; [by rewrite Hm|].
    intros ref Href. rewrite Forall_forall in Hall. by apply Hall.
  - rewrite <- (length_fmap fst). apply Permutation_length.
    apply NoDup_Permutation; [done|apply NoDup_remove_dups|].
    intros key. rewrite elem_of_remove_dups, !list_elem_of_fmap. split.
    + intros ([key' g] & -> & Hg). rewrite Forall_forall in Hgs.
      destruct (Hgs _ Hg) as (_ & _ & (first & rest & _ & Hm & _) & Hall & _).
      cbn [fst snd] in *. rewrite Hm in Hall. apply Forall_cons in Hall as [(l & Hl & Hk) _].
      exists l. split; [done|]. by eapply list_elem_of_lookup_2.
    + intros (l & -> & Hl). rewrite Forall_forall in Hmem.
      destruct (Hmem _ Hl) as (g & Hg%get_Some_elem & _). by exists (Link.normalizedHref l, g).
Qed.

(** *** The inventory invariant *)

Lemma inventory_wf_of_refs (s : State.t) :
  Link.id <$> State.links s = seq 0 (length (State.links s)) →
  all_refs (State.groups s) ≡ₚ seq 0 (length (State.links s)) →
  inventory_wf s.
Proof.
  intros Hids Hrefs. unfold inventory_wf.
  change (group_refs s) with (all_refs (State.groups s)).
  split; [done|]. split; [rewrite Hrefs; apply NoDup_seq|].
  split; apply Forall_forall; intros r Hr.
  - rewrite Hrefs in Hr. apply elem_of_seq in Hr. lia.
  - by rewrite Hrefs.
Qed.

Lemma applyAutoStrip_wf (s : State.t) : session_wf s → session_wf (applyAutoStrip s).
Proof.
  unfold session_wf, inventory_wf, document_order, applyAutoStrip, group_refs.
  destruct s as [oh st gs ws sts tsc pr].
  unfold State.set_links. cbn [State.links State.groups].
  pose proof (strip_groups_static gs.*2 st) as Hs.
  rewrite (same_static_length _ _ Hs).
  assert (∀ {A} (f : Link.t → A), (∀ l, f (Link.set_keep true l) = f l) →
            f <$> foldl strip_group st gs.*2 = f <$> st) as Hfield.
  { intros A f Hf. unfold same_static in Hs. apply (f_equal (fmap f)) in Hs.
    rewrite <- !list_fmap_compose in Hs.
    etrans; [|etrans; [exact Hs|]]; apply list_fmap_ext; intros ? l ?; simpl; by rewrite Hf. }
  by rewrite (Hfield _ Link.id), (Hfield _ Link.rawIndex) by (by intros []).
Qed.

(** Every session that [handleAnalyze] produces satisfies the inventory
    invariant and is in document order. *)
Lemma handleAnalyze_wf input site_domain container s s' :
  session_wf s →
  handleAnalyze new_URL input site_domain container s = Normal s' →
  session_wf s'.
Proof.
  intros Hwf. unfold handleAnalyze. case_bool_decide; [by intros [= <-]|].
  destruct (analyzeHtml _ _ _) as [r|] eqn:Hr; [|done].
  cbn [mbind completion_bind mret completion_ret]. intros [= <-].
  apply analyzeHtml_spec in Hr as (Hids & _ & _ & Hrefs & Hsorted & Hraw & _).
  apply applyAutoStrip_wf. split; [by apply inventory_wf_of_refs|done].
Qed.

(** *** Warnings *)

Lemma filter_flat_map_none {A} (P : Warning → Prop) `{∀ w, Decision (P w)}
    (f : A → list Warning) (l : list A) :
  (∀ x w, w ∈ f x → ¬ P w) → filter P (flat_map f l) = [].
Proof.
  intros Hf. induction l as [|x l IH]; [done|]. cbn [flat_map].
  rewrite filter_app, IH, app_nil_r.
  specialize (Hf x). induction (f x) as [|w ws IHw]; [done|].
  rewrite filter_cons, decide_False by (apply Hf; left).
  apply IHw. intros w' Hw'. apply Hf. by right.
Qed.

Lemma filter_density_warnings (ps : list (node * list node)) :
  filter (λ w, type w = density) (flat_map (λ e, density_warning e.1) ps)
  = (λ e, density_of e.1)
      <$> filter (λ e, 5 ≤ length (querySelectorAll a_href e.1)) ps.
Proof.
  induction ps as [|e ps IH]; [done|]. cbn [flat_map].
  rewrite filter_app, IH, filter_cons. unfold density_warning.
  destruct (Nat.leb_spec 5 (length (querySelectorAll a_href e.1))) as [Hle|Hlt].
  - rewrite decide_True by done. by rewrite filter_cons, decide_True by done.
  - by rewrite decide_False by lia.
Qed.

(** C6, as amended.  The analysis emits exactly one [density] warning for
    each paragraph that has five or more anchors carrying an [href]
    attribute, whatever the href normalises to, and none for any other
    paragraph; the warnings come in the order of the paragraphs and do not
    depend on the grouping. *)
Theorem analyzeHtml_density (site_domain : str) (container : node) (r : Analysis.t) :
  analyzeHtml new_URL site_domain container = Normal r →
  filter (λ w, type w = density) (Analysis.warnings r)
  = (λ e, density_of e.1)
      <$> filter (λ e, 5 ≤ length (querySelectorAll a_href e.1))
                 (querySelectorAll p container).
Proof.
  intros (_ & _ & _ & _ & _ & _ & -> & _)%analyzeHtml_spec.
  rewrite !filter_app, filter_density_warnings.
  rewrite !filter_flat_map_none; [done|..].
  - intros [url g] w. unfold group_warnings.
    intros [Hw|Hw]%elem_of_app; repeat case_match;
      try (by apply elem_of_nil in Hw); by apply list_elem_of_singleton in Hw as ->.
  - intros e w. unfold broken_warning. repeat case_match;
      intros Hw; try (by apply elem_of_nil in Hw);
      by apply list_elem_of_singleton in Hw as ->.
Qed.

(** *** Anchors that are left out *)

Lemma valid_href_javascript a :
  getAttribute (lit "href") a = Some (lit "javascript:void(0)") →
  valid_href new_URL a = false ∧ broken_warning a
    = [BrokenLink (lit "javascript:void(0)") (take 40 (trim (textContent a)))].
Proof. intros Hhref. unfold valid_href, broken_warning. rewrite Hhref. by vm_compute. Qed.

(** C5, as amended.  An anchor whose href is [javascript:void(0)] is left
    out of the inventory.  No link stands for it.  The keys of the groups
    are distinct, no group is empty, and the members of a group are links
    of the inventory with the key of the group, none of which stands for
    the anchor.  The statistics are counts over this inventory, so they do
    not count the anchor: [totalLinks] is the number of anchors with a
    key, and [uniqueUrls] the number of keys of the links.  The anchor
    gives the warnings one [broken] warning, which stands between the
    [broken] warnings of the anchors before it and of the anchors after
    it; the other warnings are those of the groups and of the
    paragraphs. *)
Theorem analyzeHtml_javascript_href (site_domain : str) (container : node)
    (r : Analysis.t) (i : nat) (a : node) (ancestors : list node) :
  analyzeHtml new_URL site_domain container = Normal r →
  querySelectorAll a_href container !! i = Some (a, ancestors) →
  getAttribute (lit "href") a = Some (lit "javascript:void(0)") →
  (∀ l, l ∈ Analysis.links r → Link.rawIndex l ≠ i)
  ∧ NoDup (Analysis.groups r).*1
  ∧ (∀ key g, (key, g) ∈ Analysis.groups r →
       Group.links g ≠ []
       ∧ ∀ ref, ref ∈ Group.links g →
           ∃ l, Analysis.links r !! ref = Some l
                ∧ Link.normalizedHref l = key
                ∧ Link.rawIndex l ≠ i)
  ∧ valid_href new_URL a = false
  ∧ Stats.totalLinks (Analysis.stats r)
    = length (filter (λ e, valid_href new_URL e.1) (querySelectorAll a_href container))
  ∧ Analysis.stats r
    = Stats.mk (length (Analysis.links r))
        (length (remove_dups (Link.normalizedHref <$> Analysis.links r)))
        (count_links Link.isImageLink (Analysis.links r))
        (count_links Link.isCtaLink (Analysis.links r))
        (length (Analysis.links r) - count_links Link.isImageLink (Analysis.links r)
         - count_links Link.isCtaLink (Analysis.links r))
        (count_links Link.isExternal (Analysis.links r))
  ∧ Analysis.warnings r
    = flat_map (λ e, if valid_href new_URL e.1 then [] else broken_warning e.1)
               (take i (querySelectorAll a_href container))
      ++ [BrokenLink (lit "javascript:void(0)") (take 40 (trim (textContent a)))]
      ++ flat_map (λ e, if valid_href new_URL e.1 then [] else broken_warning e.1)
                  (drop (S i) (querySelectorAll a_href container))
      ++ flat_map group_warnings (Analysis.groups r)
      ++ flat_map (λ e, density_warning e.1) (querySelectorAll p container).
Proof.
  intros Hr Hi Hhref.
  pose proof (analyzeHtml_groups _ _ _ Hr) as (Hnd & Hgroups & Huniq).
  apply analyzeHtml_spec in Hr as (Hids & Hall & Hlen & Hrefs & _ & _ & Hwarn & Hstats).
  destruct (valid_href_javascript a Hhref) as [Hvalid Hbroken].
  assert (∀ l, l ∈ Analysis.links r → Link.rawIndex l ≠ i) as Hout.
  { intros l Hl. rewrite Forall_forall in Hall.
    destruct (Hall l Hl) as (k & e & He & Hk & Hv & _). intros Hri.
    assert (k = i) as -> by congruence.
    rewrite Hi in He. injection He as <-. cbn [fst] in Hv. congruence. }
  split_and!; try done.
  - intros key g Hg. destruct (Hgroups key g Hg) as (_ & Hne & Hmembers).
    split; [done|]. intros ref Href. destruct (Hmembers ref Href) as (l & Hl & Hkey).
    exists l. split_and!; try done. apply Hout. by eapply list_elem_of_lookup_2.
  - by rewrite Hstats.
  - by rewrite Hstats, Huniq.
  - rewrite Hwarn, <- (take_drop_middle _ i (a, ancestors) Hi) at 1.
    rewrite flat_map_app. cbn [flat_map fst]. rewrite Hvalid, Hbroken.
    by rewrite <- !app_assoc.
Qed.

End analysis.

Lemma analyzeHtml_density_witness :
  ∃ r, analyzeHtml plain_URL [] scenario_E = Normal r
       ∧ filter (λ w, type w = density) (Analysis.warnings r)
         = [Density 5 (lit "Links: abcde")].
Proof.
  destruct (analyzeHtml plain_URL [] scenario_E) as [r|] eqn:Hr; [|by vm_compute in Hr].
  exists r. split; [done|].
  rewrite (analyzeHtml_density plain_URL [] scenario_E r Hr). by vm_compute.
Defined.

(** C6 as stated fails: a paragraph with five anchors whose href is [#],
    none of them valid, gets a [density] warning. *)
Lemma analyzeHtml_density_counterexample :
  ∃ r para,
    analyzeHtml plain_URL [] five_fragments = Normal r
    ∧ (fst <$> querySelectorAll p five_fragments) = [para]
    ∧ length (filter (λ e, valid_href plain_URL e.1) (querySelectorAll a_href para)) = 0
    ∧ filter (λ w, type w = density) (Analysis.warnings r) = [Density 5 (lit "12345")].
Proof.
  eexists _, _. split_and!.
  - vm_compute. reflexivity.
  - vm_compute. reflexivity.
  - vm_compute. reflexivity.
  - vm_compute. reflexivity.
Qed.

Lemma analyzeHtml_javascript_href_witness :
  ∃ r a ancestors,
    analyzeHtml plain_URL (lit "x.com") article = Normal r
    ∧ querySelectorAll a_href article !! 6 = Some (a, ancestors)
    ∧ Forall (λ l, Link.rawIndex l ≠ 6) (Analysis.links r)
    ∧ Analysis.groups r
      = [(lit "/product", product_group); (lit "/guide", guide_group)]
    ∧ Analysis.stats r = Stats.mk 6 2 1 1 4 0
    ∧ Analysis.warnings r
      = [BrokenLink (lit "javascript:void(0)") (lit "menu");
         InHeading (lit "/guide") 1].
Proof.
  destruct (analyzeHtml plain_URL (lit "x.com") article) as [r|] eqn:Hr;
    [|by vm_compute in Hr].
  destruct (querySelectorAll a_href article !! 6) as [[a ancestors]|] eqn:Ha;
    [|by vm_compute in Ha].
  exists r, a, ancestors. split; [done|]. split; [done|].
  assert (getAttribute (lit "href") a = Some (lit "javascript:void(0)")) as Hhref.
  { vm_compute in Ha. injection Ha as <- _. by vm_compute. }
  destruct (analyzeHtml_javascript_href plain_URL (lit "x.com") article r 6 a ancestors
              Hr Ha Hhref) as (Hout & _ & _ & _ & _ & Hstats & Hw).
  split; [by apply Forall_forall|].
  split; [vm_compute in Hr; by injection Hr as <-|].
  split.
  - rewrite Hstats. vm_compute in Hr. injection Hr as <-. by vm_compute.
  - rewrite Hw. vm_compute in Ha. injection Ha as <- _.
    vm_compute in Hr. injection Hr as <-. by vm_compute.
Defined.

(** C5 as stated fails: the analysis of a document whose only anchor has
    the href [javascript:void(0)] emits a warning for that anchor. *)
Lemma analyzeHtml_javascript_href_counterexample :
  ∃ r, analyzeHtml plain_URL [] scenario_C = Normal r
       ∧ Analysis.links r = []
       ∧ Analysis.warnings r = [BrokenLink (lit "javascript:void(0)") (lit "menu")]
       ∧ Analysis.warnings r ≠ [].
Proof. eexists. split_and!; by vm_compute. Qed.

(** An anchor of an SVG image makes the analysis throw: [isCtaLink] calls
    [toLowerCase] on its [className]. *)
Lemma analyzeHtml_svg_anchor :
  analyzeHtml plain_URL [] svg_anchor = Throw TypeError.
Proof. by vm_compute. Qed.

(** An anchor with the href [constructor] makes the analysis throw. *)
Lemma analyzeHtml_inherited_key :
  analyzeHtml plain_URL []
    (container [elt "a" [("href", "constructor")%string] [txt "x"]])
  = Throw TypeError.
Proof. by vm_compute. Qed.

(** ** Trees *)

Section trees.










End trees.

(** ** HTML generation *)

Section regeneration.

Variable new_URL : url_parser.








(** *** Stripping [target="_self"] *)









Variable parse : str → list node.
Variable innerHTML : node → str.


End regeneration.



(** ** The sample session *)

Lemma article_session_wf : session_wf article_session.
Proof. apply (bool_decide_unpack _). by vm_compute. Qed.

Lemma article_session_groups :
  State.groups article_session
  = [(lit "/product", product_group); (lit "/guide", guide_group)].
Proof. by vm_compute. Qed.

Lemma applyAutoStrip_text_policy_witness :
  let after := State.links (applyAutoStrip article_session) in
  session_wf article_session
  ∧ text_refs (State.links article_session) (Group.links product_group) = [0; 2]
  ∧ kept after 0 = Some true ∧ kept after 2 = Some false
  ∧ text_refs (State.links article_session) (Group.links guide_group) = [4; 5]
  ∧ kept after 4 = Some true ∧ kept after 5 = Some true.
Proof.
  intros after. split; [exact article_session_wf|].
  destruct (applyAutoStrip_text_policy article_session (lit "/product") product_group
              article_session_wf) as (_ & Hsame & _).
  { rewrite article_session_groups. apply list_elem_of_here. }
  destruct (applyAutoStrip_text_policy article_session (lit "/guide") guide_group
              article_session_wf) as (Hdiff & _ & _).
  { rewrite article_session_groups. apply list_elem_of_further, list_elem_of_here. }
  assert (¬ ∃ r1 r2,
            text_refs (State.links article_session) (Group.links product_group) = [r1; r2]
            ∧ norm_text (State.links article_session) r1
              ≠ norm_text (State.links article_session) r2) as Hno.
  { intros (r1 & r2 & Heq & Hne). vm_compute in Heq. injection Heq as <- <-.
    apply Hne. by vm_compute. }
  split; [by vm_compute|].
  split; [exact (Hsame Hno 0 0 eq_refl)|].
  split; [exact (Hsame Hno 1 2 eq_refl)|].
  split; [by vm_compute|].
  apply (Hdiff 4 5); [by vm_compute|]. by vm_compute.
Defined.

Lemma applyAutoStrip_keeps_protected_witness :
  ∃ l, State.links (applyAutoStrip article_session) !! 1 = Some l
       ∧ Link.isImageLink l = true ∧ Link.keep l = true.
Proof.
  eexists. split; [by vm_compute|]. split; [reflexivity|].
  eapply (applyAutoStrip_keeps_protected article_session);
    [exact article_session_wf| |reflexivity].
  apply (list_elem_of_lookup_2 _ 1). by vm_compute.
Defined.

Lemma toggleLink_protected_noop_witness :
  toggleLink 1 article_session = article_session
  ∧ toggleLink 3 article_session = article_session
  ∧ toggleLink 99 article_session = article_session.
Proof.
  assert (∀ id, Forall (λ l, Link.id l = id → Link.isImageLink l || Link.isCtaLink l = true)
                       (State.links article_session) →
                toggleLink id article_session = article_session) as Hnoop.
  { intros id Hall. apply (proj1 (toggleLink_protected_noop id article_session)).
    rewrite Forall_forall in Hall. exact Hall. }
  split_and!; apply Hnoop; apply (bool_decide_unpack _); by vm_compute.
Defined.
